(** * cmlutils-teams: team migration between two workspace instances

    A shallow embedding of [cmlutils/teams.py] and of the parts of
    [cmlutils/teams_entrypoint.py] that drive it, followed by the properties
    the specification states about them.

    Python dictionaries that play the role of JSON records are records here;
    the importer object ([self]), the Python heap of member dictionaries, the
    log and the remote workspace make up an explicit [world] that every
    method threads through a state-and-exception monad. *)

From Stdlib Require Import ZArith Lia.
From stdpp Require Import base strings list gmap sorting.

Open Scope string_scope.
Open Scope list_scope.
Open Scope nat_scope.

(** ** JSON records *)

(** One entry of a team's [teamMembers] list.  [m_username] and [permission]
    are the keys ['username'] and ['permission']; every other key is carried
    along untouched in [m_fields]. *)
Record member := Member {
  m_username : string;
  permission : string;
  m_fields : list (string * string)
}.

(** A row of the user/team listing.  Users and teams come from the same
    endpoint; a team is a row whose [teamMembers] is filled in.  The type of
    the entries of [teamMembers] is a parameter: member records in a JSON
    document, references to member dictionaries once loaded in memory. *)
Record account_of (R : Type) := Account {
  username : string;
  admin : bool;
  teamMembers : list R;
  fields : list (string * string)
}.
Arguments Account {R} _ _ _ _.
Arguments username {R} _.
Arguments admin {R} _.
Arguments teamMembers {R} _.
Arguments fields {R} _.

Definition account := account_of member.

(** A reference to a member dictionary: its address in the heap. *)
Definition ref := nat.
Definition team_obj := account_of ref.

#[global] Instance member_eq_dec : EqDecision member.
Proof. solve_decision. Defined.
#[global] Instance account_of_eq_dec {R} `{EqDecision R} : EqDecision (account_of R).
Proof. solve_decision. Defined.
#[global] Instance member_inhabited : Inhabited member :=
  populate (Member "" "" []).

(** ** Requests and responses of the v1 API *)

Inductive http_method := GET | POST | DELETE.

(** The endpoint templates of [ApiV1Endpoints] with their parameters
    substituted.  [USER_TEAM_LIST] carries the [type=organization] /
    [type=user] suffix as its boolean. *)
Inductive endpoint :=
  | API_KEY (username : string)
  | USER_TEAM_LIST (offset limit : nat) (is_team : bool)
  | ADD_TEAM
  | DEL_TEAM (team : string)
  | TEAM_MEMBER_ADD (team : string).

(** JSON documents that travel in either direction. *)
Inductive json :=
  | JExpiry (expiryDate : Z)                 (* {"expiryDate": ...} *)
  | JTeam (type : string) (name : string)    (* {"type": ..., "username": ...} *)
  | JMember (m : member)
  | JApiKey (apiKey : string)                (* {"apiKey": ...} *)
  | JAccounts (rows : list account)          (* a JSON array of rows *)
  | JMessage (message : string)              (* {"message": ...} *)
  | JEmpty.

Record request := Request {
  rq_host : string;
  rq_endpoint : endpoint;
  rq_method : http_method;
  rq_api_key : option string;
  rq_json_data : option json;
  rq_ca_path : string
}.

Record response := Response {
  status_code : Z;
  body : json
}.

#[global] Instance http_method_eq_dec : EqDecision http_method.
Proof. solve_decision. Defined.
#[global] Instance endpoint_eq_dec : EqDecision endpoint.
Proof. solve_decision. Defined.
#[global] Instance json_eq_dec : EqDecision json.
Proof. solve_decision. Defined.
#[global] Instance request_eq_dec : EqDecision request.
Proof. solve_decision. Defined.
#[global] Instance response_eq_dec : EqDecision response.
Proof. solve_decision. Defined.

(** ** Exceptions *)

Inductive exn :=
  | IndexError
  | KeyError (key : string)
  | TypeError
  | HTTPError (resp : response)
  | ConnectionError
  | FileNotFoundError (path : string)
  | RuntimeError (what : string).

#[global] Instance exn_eq_dec : EqDecision exn.
Proof. solve_decision. Defined.

(** The name of the class of an exception. *)
Definition exn_class (e : exn) : string :=
  match e with
  | IndexError => "IndexError"
  | KeyError _ => "KeyError"
  | TypeError => "TypeError"
  | HTTPError _ => "HTTPError"
  | ConnectionError => "ConnectionError"
  | FileNotFoundError _ => "FileNotFoundError"
  | RuntimeError _ => "RuntimeError"
  end.

(** ** Log records *)

Inductive levelname := DEBUG | INFO | WARNING | ERROR.

(** The messages the module logs, by format string, with their arguments. *)
Inductive log_msg :=
  | should_have_owner (team : string)
  | more_than_one_owners (team : string) (owners : list string)
  | owner_not_admin (owner team : string)
  | not_in_user_list (user team : string)
  | user_data (user : option string) (data : json)
  | begin_add_team (team : string) (user : option string)
  | begin_add_member (member team : string)
  | already_added (member team : string)
  | converted_to_admin (team owner : string)
  | importing_from (path : string)
  | delete_team (team : string).

Definition log_record := (levelname * log_msg)%type.

#[global] Instance levelname_eq_dec : EqDecision levelname.
Proof. solve_decision. Defined.
#[global] Instance log_msg_eq_dec : EqDecision log_msg.
Proof. solve_decision. Defined.

(** ** The importer object and the world around it *)

Inductive metric :=
  | MCount (n : nat)
  | MNames (names : list string)
  | MRows (rows : list account).

(** The attributes of a [TeamBase] instance. *)
Record TeamBase := Self {
  host : string;
  self_username : string;
  api_key : string;
  top_level_dir : string;
  ca_path : string;
  key_cache : gmap string (option string);
  metrics_data : gmap string metric
}.

(** Everything a method can read or change.  [heap] holds the member
    dictionaries that are alive (a [ref] is an index into it), [files] the
    JSON documents on disk, [now] the clock, [logs] what [logging] received
    and [remote] the state of the workspace behind [host].  [sent] is a
    ghost record of the requests handed to the transport, oldest first. *)
Record world (Σ : Type) := World {
  self : TeamBase;
  heap : list member;
  files : gmap string (list account);
  now : Z;
  logs : list log_record;
  sent : list request;
  remote : Σ
}.
Arguments World {Σ} _ _ _ _ _ _ _.
Arguments self {Σ} _.
Arguments heap {Σ} _.
Arguments files {Σ} _.
Arguments now {Σ} _.
Arguments logs {Σ} _.
Arguments sent {Σ} _.
Arguments remote {Σ} _.

Definition set_self {Σ} (x : TeamBase) (w : world Σ) : world Σ :=
  World x (heap w) (files w) (now w) (logs w) (sent w) (remote w).
Definition set_heap {Σ} (x : list member) (w : world Σ) : world Σ :=
  World (self w) x (files w) (now w) (logs w) (sent w) (remote w).
Definition set_logs {Σ} (x : list log_record) (w : world Σ) : world Σ :=
  World (self w) (heap w) (files w) (now w) x (sent w) (remote w).
Definition set_sent {Σ} (x : list request) (w : world Σ) : world Σ :=
  World (self w) (heap w) (files w) (now w) (logs w) x (remote w).
Definition set_remote {Σ} (x : Σ) (w : world Σ) : world Σ :=
  World (self w) (heap w) (files w) (now w) (logs w) (sent w) x.

Definition set_key_cache (x : gmap string (option string)) (o : TeamBase) : TeamBase :=
  Self (host o) (self_username o) (api_key o) (top_level_dir o) (ca_path o)
       x (metrics_data o).
Definition set_metrics_data (x : gmap string metric) (o : TeamBase) : TeamBase :=
  Self (host o) (self_username o) (api_key o) (top_level_dir o) (ca_path o)
       (key_cache o) x.

(** The collaborators that live outside [teams.py]: the HTTP transport
    behind [cmlutils.utils.call_api_v1] (one request against the remote
    state gives a response or raises), the path helpers of
    [cmlutils.directory_utils] and the projection
    [extract_fields (_, MEMBER_MAPV1)] of [cmlutils.utils]. *)
Class Platform (Σ : Type) := {
  http : request → Σ → (exn + response) * Σ;
  get_teams_metadata_file_path : string → string;
  get_users_metadata_file_path : string → string;
  extract_fields_MEMBER_MAPV1 : member → member
}.

(** ** The monad of methods: state, exceptions and fuel *)

(** [Diverge] is the outcome of a loop that ran out of fuel; no handler
    catches it. *)
Inductive result (A : Type) :=
  | Ok (a : A)
  | Raise (e : exn)
  | Diverge.
Arguments Ok {A} _.
Arguments Raise {A} _.
Arguments Diverge {A}.

Definition M (Σ A : Type) := world Σ → result A * world Σ.

Definition ret {Σ A} (a : A) : M Σ A := λ w, (Ok a, w).

Definition bind {Σ A B} (m : M Σ A) (k : A → M Σ B) : M Σ B :=
  λ w, match m w with
       | (Ok a, w') => k a w'
       | (Raise e, w') => (Raise e, w')
       | (Diverge, w') => (Diverge, w')
       end.

Definition raise {Σ A} (e : exn) : M Σ A := λ w, (Raise e, w).
Definition diverge {Σ A} : M Σ A := λ w, (Diverge, w).

(** [try: m except: h] — the handler runs in the world the body left. *)
Definition try_except {Σ A} (m : M Σ A) (h : exn → M Σ A) : M Σ A :=
  λ w, match m w with
       | (Raise e, w') => h e w'
       | r => r
       end.

(** Reading one component of the world: an attribute of [self], the clock,
    the file system. *)
Definition gets {Σ A} (f : world Σ → A) : M Σ A := λ w, (Ok (f w), w).
Definition modify {Σ} (f : world Σ → world Σ) : M Σ unit := λ w, (Ok tt, f w).

Declare Scope m_scope.
Delimit Scope m_scope with m.
Notation "x <- c1 ;; c2" := (bind c1 (λ x, c2))
  (at level 100, c1 at next level, c2 at level 200, right associativity) : m_scope.
Notation "c1 ;; c2" := (bind c1 (λ _, c2))
  (at level 100, c2 at level 200, right associativity) : m_scope.
Open Scope m_scope.

(** [for x in l: body x] *)
Fixpoint for_each {Σ A} (l : list A) (body : A → M Σ unit) : M Σ unit :=
  match l with
  | [] => ret tt
  | x :: l' => body x ;; for_each l' body
  end.

(** A [for] loop that reassigns one local variable. *)
Fixpoint for_acc {Σ A B} (l : list A) (acc : B) (body : A → B → M Σ B) : M Σ B :=
  match l with
  | [] => ret acc
  | x :: l' => acc' <- body x acc ;; for_acc l' acc' body
  end.

(** [l[i]] *)
Definition getitem {Σ A} (l : list A) (i : nat) : M Σ A :=
  match l !! i with
  | Some x => ret x
  | None => raise IndexError
  end.

Definition logging {Σ} (lvl : levelname) (msg : log_msg) : M Σ unit :=
  modify (λ w, set_logs (logs w ++ [(lvl, msg)]) w).

(** Reading and writing member dictionaries through references. *)
Definition deref {Σ} (r : ref) : M Σ member := λ w, (Ok (heap w !!! r), w).

Definition setitem_permission {Σ} (r : ref) (v : string) : M Σ unit :=
  modify (λ w, let m := heap w !!! r in
               set_heap (<[r := Member (m_username m) v (m_fields m)]> (heap w)) w).

(** [list(filter(lambda m: P m, l))] over a list of references. *)
Definition filter_refs {Σ} (P : member → Prop) `{∀ m, Decision (P m)}
    (l : list ref) : M Σ (list ref) :=
  λ w, (Ok (filter (λ r, P (heap w !!! r)) l), w).

(** [read_json_file]: the document stored under [path]. *)
Definition read_json_file {Σ} (path : string) : M Σ (list account) :=
  fs <- gets files ;;
  match fs !! path with
  | Some rows => ret rows
  | None => raise (FileNotFoundError path)
  end.

(** Parsing allocates fresh dictionaries.  Only [_create_or_update_team]
    writes to one, so only the teams it is given are put on the heap:
    the members of [team] go to the end of it, in order. *)
Definition load {Σ} (team : account) : M Σ team_obj :=
  λ w, let n := length (heap w) in
       (Ok (Account (username team) (admin team)
                    (seq n (length (teamMembers team))) (fields team)),
        set_heap (heap w ++ teamMembers team) w).

Fixpoint load_all {Σ} (rows : list account) : M Σ (list team_obj) :=
  match rows with
  | [] => ret []
  | team :: rows' =>
      t <- load team ;; ts <- load_all rows' ;; ret (t :: ts)
  end.

(** [s.find(sub)]: the lowest index at which [sub] occurs in [s], or -1. *)
Fixpoint find_from (sub s : string) (i : Z) : Z :=
  if String.prefix sub s then i
  else match s with
       | EmptyString => (-1)%Z
       | String _ s' => find_from sub s' (i + 1)%Z
       end.

Definition find (s sub : string) : Z := find_from sub s 0.

(** [sorted] on a list of names. *)
Definition name_le (a b : string) : Prop := String.leb a b = true.
#[global] Instance name_le_dec : RelDecision name_le.
Proof. intros a b. unfold name_le. apply _. Defined.

Definition sorted (names : list string) : list string :=
  merge_sort name_le names.

(** ** [_check_teams_users_integration] *)

Section Program.
Context {Σ : Type} `{Platform Σ}.

(** check whether all members in teams are present in user *)
Definition _check_teams_users_integration
    (user_list team_list : list account) : M Σ bool :=
  let result := true in
  let user_dict :=
    foldl (λ d user, <[username user := user]> d)
          (∅ : gmap string account) user_list in
  result <- for_acc team_list result (λ team result,
    let member_list := teamMembers team in
    let team_name := username team in
    let team_owner_list := filter (λ m, permission m = "owner") member_list in
    result <- (if decide (length team_owner_list ≤ 0)
               then logging ERROR (should_have_owner team_name) ;; ret false
               else ret result) ;;
    (if decide (1 < length team_owner_list)
     then let team_owner_name_list := map m_username team_owner_list in
          logging WARNING (more_than_one_owners team_name team_owner_name_list)
     else ret tt) ;;
    team_owner0 <- getitem team_owner_list 0 ;;
    let team_owner_name := m_username team_owner0 in
    result <- match user_dict !! team_owner_name with
              | Some team_owner =>
                  (if negb (admin team_owner)
                   then logging WARNING (owner_not_admin team_owner_name team_name)
                   else ret tt) ;;
                  ret result
              | None =>
                  logging ERROR (not_in_user_list team_owner_name team_name) ;;
                  ret false
              end ;;
    for_acc member_list result (λ member result,
      let username := m_username member in
      if decide (user_dict !! username = None)
      then logging ERROR (not_in_user_list username team_name) ;; ret false
      else ret result)) ;;
  ret result.

(** ** [TeamBase] *)

(** The module-level [call_api_v1] of [cmlutils.utils]: one round trip. *)
Definition call_api_v1 (host : string) (endpoint : endpoint)
    (method : http_method) (api_key : option string)
    (json_data : option json) (ca_path : string) : M Σ response :=
  λ w, let rq := Request host endpoint method api_key json_data ca_path in
       let '(out, s) := http rq (remote w) in
       let w' := set_remote s (set_sent (sent w ++ [rq]) w) in
       match out with
       | inl e => (Raise e, w')
       | inr response => (Ok response, w')
       end.

(** [response.json()["apiKey"]] *)
Definition json_apiKey (j : json) : M Σ string :=
  match j with
  | JApiKey k => ret k
  | _ => raise (KeyError "apiKey")
  end.

(** One week, in seconds: [timedelta(weeks=1)]. *)
Definition one_week : Z := 604800.

Definition _new_apiv2_key (username : string) : M Σ string :=
  let endpoint := API_KEY username in
  self <- gets self ;;
  datetime_now <- gets now ;;
  let json_data := JExpiry (datetime_now + one_week) in
  response <- call_api_v1 (host self) endpoint POST
                (Some (api_key self)) (Some json_data) (ca_path self) ;;
  _apiv2_key <- json_apiKey (body response) ;;
  ret _apiv2_key.

Definition _get_apiv2_key (username : string) : M Σ string :=
  let endpoint := API_KEY username in
  self <- gets self ;;
  datetime_now <- gets now ;;
  let json_data := JExpiry (datetime_now + one_week) in
  response <- call_api_v1 (host self) endpoint GET
                (Some (api_key self)) (Some json_data) (ca_path self) ;;
  _apiv2_key <- json_apiKey (body response) ;;
  ret _apiv2_key.

(** [self.key_cache[key] = v] *)
Definition key_cache_setitem (key : string) (v : option string) : M Σ unit :=
  modify (λ w, set_self
    (set_key_cache (<[key := v]> (key_cache (self w))) (self w)) w).

(** The returned key is an [option]: [None] is Python's [None].  The test
    [not api_key is not None] reads [not (api_key is not None)], and the
    cache is written under the literal key ['username']. *)
Definition _retrive_or_create_api_key_for_user (username : string)
    : M Σ (option string) :=
  self <- gets self ;;
  match key_cache self !! username with
  | Some cached => ret cached
  | None =>
      (* try to get key first *)
      api_key <- try_except (k <- _get_apiv2_key username ;; ret (Some k))
                   (λ _, try_except (k <- _new_apiv2_key username ;; ret (Some k))
                           (λ _, ret None)) ;;
      (if negb (bool_decide (api_key ≠ None))
       then key_cache_setitem "username" api_key
       else ret tt) ;;
      ret api_key
  end.

(** The method [TeamBase.call_api_v1]. *)
Definition self_call_api_v1 (endpoint : endpoint) (method : http_method)
    (json_data : option json) (username : option string) : M Σ response :=
  self <- gets self ;;
  if bool_decide (username ≠ None) && bool_decide (username ≠ Some (self_username self))
  then match username with
       | Some username =>
           api_key <- _retrive_or_create_api_key_for_user username ;;
           call_api_v1 (host self) endpoint method api_key json_data (ca_path self)
       | None => raise TypeError
       end
  else call_api_v1 (host self) endpoint method (Some (api_key self))
                   json_data (ca_path self).

(** [response.json()] of a listing: a JSON array of rows. *)
Definition json_rows (j : json) : M Σ (list account) :=
  match j with
  | JAccounts rows => ret rows
  | _ => raise TypeError
  end.

Definition get_team_or_user_listv1_paged (offset limit : nat) (is_team : bool)
    : M Σ (list account) :=
  let endpoint := USER_TEAM_LIST offset limit is_team in
  self <- gets self ;;
  response <- call_api_v1 (host self) endpoint GET
                (Some (api_key self)) None (ca_path self) ;;
  json_rows (body response).

(** The page size [limit = 10000] of [get_teamuser_listv1]. *)
Definition limit_10000 : nat := 100 * 100.

(** The [while] loop of [get_teamuser_listv1], for any page size; one unit
    of fuel pays for one evaluation of its condition. *)
Fixpoint teamuser_list_loop (fuel limit page : nat) (is_team : bool)
    (user_list user_list_page : list account) : M Σ (list account) :=
  match fuel with
  | 0 => diverge
  | S fuel' =>
      if decide (0 < length user_list_page)
      then let page := page + 1 in
           let user_list := user_list ++ user_list_page in
           user_list_page <-
             get_team_or_user_listv1_paged (page * limit) limit is_team ;;
           teamuser_list_loop fuel' limit page is_team user_list user_list_page
      else ret user_list
  end.

Definition teamuser_list (fuel limit : nat) (is_team : bool) : M Σ (list account) :=
  let page := 0 in
  let user_list := [] in
  user_list_page <- get_team_or_user_listv1_paged (page * limit) limit is_team ;;
  teamuser_list_loop fuel limit page is_team user_list user_list_page.

Definition get_teamuser_listv1 (fuel : nat) (is_team : bool) : M Σ (list account) :=
  teamuser_list fuel limit_10000 is_team.

(** [team['username']] of a translated team. *)
Definition json_username (j : json) : M Σ string :=
  match j with
  | JTeam _ name => ret name
  | JMember m => ret (m_username m)
  | _ => raise (KeyError "username")
  end.

Definition _add_teamv1 (team : json) (username : option string) : M Σ json :=
  let endpoint := ADD_TEAM in
  logging DEBUG (user_data username team) ;;
  response <- self_call_api_v1 endpoint POST (Some team) username ;;
  ret (body response).

Definition _del_teamv1 (team : team_obj) : option string → M Σ Z :=
  let team_name := username team in
  λ username,
    let endpoint := DEL_TEAM team_name in
    response <- self_call_api_v1 endpoint DELETE None username ;;
    ret (status_code response).

Definition _add_team (team : json) (username : option string) : M Σ unit :=
  team_name <- json_username team ;;
  logging INFO (begin_add_team team_name username) ;;
  _add_teamv1 team username ;;
  ret tt.

Definition _namelist {R} (l : list (account_of R)) : list string :=
  map (λ d, username d) l.

Definition _del_team (team : team_obj) : M Σ unit :=
  try_except (_del_teamv1 team None ;; ret tt) (λ _, ret tt).

Definition _add_team_memberv1 (team_name : string) (member : member)
    (username : option string) : M Σ json :=
  let endpoint := TEAM_MEMBER_ADD team_name in
  response <- self_call_api_v1 endpoint POST (Some (JMember member)) username ;;
  ret (body response).

(** [str(resp.json()['message'])] *)
Definition json_message (j : json) : M Σ string :=
  match j with
  | JMessage message => ret message
  | _ => raise (KeyError "message")
  end.

Definition already_a_member : string := "is already a member of this team".

Definition add_team_member (team_name : string) (member : member)
    (username : option string) : M Σ unit :=
  let member_name := m_username member in
  logging INFO (begin_add_member member_name team_name) ;;
  try_except (_add_team_memberv1 team_name member username ;; ret tt)
    (λ e, match e with
          | HTTPError resp =>
              cause <- json_message (body resp) ;;
              if decide (find cause already_a_member < 0)%Z
              then raise e
              else logging WARNING (already_added member_name team_name)
          | _ => raise e
          end).

(** ** [TeamImporter] *)

(** Set once in [__init__] and never reassigned. *)
Definition ENABLE_TEAM_FAKE_TEST : bool := false.

Definition _translate_team (team : team_obj) : json :=
  JTeam "organization" (username team).

Definition _translate_member (m : member) : member :=
  extract_fields_MEMBER_MAPV1 m.

Definition _create_or_update_team (team : team_obj) : M Σ unit :=
  let team_name := username team in
  let member_list := teamMembers team in
  team_owner_list <- filter_refs (λ m, permission m = "owner") member_list ;;
  team_owner <- getitem team_owner_list 0 ;;
  owner <- deref team_owner ;;
  let owner_name := m_username owner in
  _del_team team ;;
  _add_team (_translate_team team) (Some owner_name) ;;
  if negb ENABLE_TEAM_FAKE_TEST
  then
    filtered_member_list <- filter_refs (λ m, permission m ≠ "owner") member_list ;;
    for_each filtered_member_list (λ m,
      m' <- deref m ;;
      let member := _translate_member m' in
      add_team_member team_name member (Some owner_name)) ;;
    for_each (seq 0 (length team_owner_list)) (λ i,
      if decide (i = 0)
      then ret tt
      else
        m <- getitem team_owner_list i ;;
        m' <- deref m ;;
        let owner_name := m_username m' in
        logging WARNING (converted_to_admin team_name owner_name) ;;
        setitem_permission m "admin" ;;
        m' <- deref m ;;
        let member := _translate_member m' in
        add_team_member team_name member (Some owner_name))
  else
    filtered_member_list <- filter_refs (λ m, permission m ≠ "owner") member_list ;;
    if decide (0 < length filtered_member_list)
    then
      m <- getitem filtered_member_list 0 ;;
      m' <- deref m ;;
      let member := _translate_member m' in
      let member := Member "oleg" (permission member) (m_fields member) in
      add_team_member team_name member (Some owner_name)
    else ret tt.

Definition _pre_import_verify (fuel : nat) : M Σ bool :=
  self <- gets self ;;
  let filepath := get_teams_metadata_file_path (top_level_dir self) in
  team_list <- read_json_file filepath ;;
  user_list <- get_teamuser_listv1 fuel false ;;
  result <- _check_teams_users_integration user_list team_list ;;
  ret result.

Definition set_metric (key : string) (v : metric) : M Σ unit :=
  modify (λ w, set_self
    (set_metrics_data (<[key := v]> (metrics_data (self w))) (self w)) w).

Definition _import_teams (fuel : nat) : M Σ unit :=
  self <- gets self ;;
  let filepath := get_teams_metadata_file_path (top_level_dir self) in
  rows <- read_json_file filepath ;;
  team_metadata_list <- load_all rows ;;
  logging INFO (importing_from filepath) ;;
  for_each team_metadata_list (λ team,
    let team_name := username team in
    _create_or_update_team team) ;;
  team_list <- get_teamuser_listv1 fuel true ;;
  let team_name_list := map (λ c, username c) team_list in
  set_metric "total_teams" (MCount (length team_name_list)) ;;
  set_metric "team_name_list" (MNames (sorted team_name_list)).

Definition _import_team_metadata (fuel : nat) : M Σ (gmap string metric) :=
  _import_teams fuel ;;
  self <- gets self ;;
  ret (metrics_data self).

End Program.

(** ** A reference workspace

    A small model of the service on the other side of the transport, used to
    run the importer end to end.  It authenticates every request by its API
    key, serves the paged listing, hands out and mints keys for the users it
    knows, and keeps the teams with their members. *)
Module Workspace.

Record state := State {
  users : list account;
  api_keys : list (string * string);        (* username, key *)
  teams : gmap string account
}.

Definition unauthorized : exn := HTTPError (Response 401 (JMessage "unauthorized")).
Definition not_found : exn := HTTPError (Response 404 (JMessage "not found")).
Definition bad_request (message : string) : exn :=
  HTTPError (Response 400 (JMessage message)).
Definition ok (j : json) : exn + response := inr (Response 200 j).

(** The user a key belongs to. *)
Definition acting (s : state) (key : option string) : option string :=
  k ← key; p ← (list_find (λ p, p.2 = k) (api_keys s)); Some p.2.1.

Definition key_of (s : state) (user : string) : option string :=
  p ← (list_find (λ p, p.1 = user) (api_keys s)); Some p.2.2.

Definition minted (user : string) : string := "key-" +:+ user.

Definition has_member (t : account) (name : string) : Prop :=
  name ∈ map m_username (teamMembers t).
#[global] Instance has_member_dec t name : Decision (has_member t name).
Proof. unfold has_member. apply _. Defined.

Definition with_member (t : account) (m : member) : account :=
  Account (username t) (admin t) (teamMembers t ++ [m]) (fields t).

Definition step (rq : request) (s : state) : (exn + response) * state :=
  match acting s (rq_api_key rq) with
  | None => (inl unauthorized, s)
  | Some actor =>
      match rq_endpoint rq, rq_method rq, rq_json_data rq with
      | API_KEY user, GET, _ =>
          match key_of s user with
          | Some k => (ok (JApiKey k), s)
          | None => (inl not_found, s)
          end
      | API_KEY user, POST, _ =>
          if decide (user ∈ map username (users s))
          then (ok (JApiKey (minted user)),
                State (users s) ((user, minted user) :: api_keys s) (teams s))
          else (inl not_found, s)
      | USER_TEAM_LIST offset limit is_team, GET, _ =>
          let rows := if is_team then (map_to_list (teams s)).*2 else users s in
          (ok (JAccounts (take limit (drop offset rows))), s)
      | ADD_TEAM, POST, Some (JTeam _ name) =>
          match teams s !! name with
          | Some _ => (inl (bad_request "team already exists"), s)
          | None =>
              (ok JEmpty,
               State (users s) (api_keys s)
                 (<[name := Account name false [Member actor "owner" []] []]> (teams s)))
          end
      | DEL_TEAM name, DELETE, _ =>
          match teams s !! name with
          | Some _ => (ok JEmpty, State (users s) (api_keys s) (delete name (teams s)))
          | None => (inl not_found, s)
          end
      | TEAM_MEMBER_ADD name, POST, Some (JMember m) =>
          match teams s !! name with
          | Some t =>
              if decide (has_member t (m_username m))
              then (inl (bad_request
                           (m_username m +:+ " is already a member of this team")), s)
              else (ok JEmpty,
                    State (users s) (api_keys s) (<[name := with_member t m]> (teams s)))
          | None => (inl not_found, s)
          end
      | _, _, _ => (inl (bad_request "unsupported"), s)
      end
  end.

#[global] Instance platform : Platform state := {
  http := step;
  get_teams_metadata_file_path := λ dir, dir +:+ "/teams.json";
  get_users_metadata_file_path := λ dir, dir +:+ "/users.json";
  extract_fields_MEMBER_MAPV1 := λ m, Member (m_username m) (permission m) []
}.

(** The members recorded for the team [name]. *)
Definition members_of (s : state) (name : string) : option (list member) :=
  teamMembers <$> teams s !! name.

End Workspace.

(** ** Sample data *)
Module Sample.
Import Workspace.

Definition alice : account := Account "alice" true [] [].
Definition bob : account := Account "bob" false [] [].
Definition carol : account := Account "carol" false [] [].

(** Team t1 of the scenario: alice owns it, bob is a member. *)
Definition t1 : account :=
  Account "t1" false [Member "alice" "owner" []; Member "bob" "member" []] [].

(** A team with two owners. *)
Definition t2 : account :=
  Account "t2" false
    [Member "alice" "owner" []; Member "bob" "member" [("id", "7")];
     Member "carol" "owner" []] [].

(** A team nobody owns. *)
Definition t0 : account := Account "t0" false [Member "bob" "member" []] [].

Definition importer : TeamBase :=
  Self "https://dst" "admin" "key-admin" "/out" "/ca" ∅ ∅.

Definition workspace (us : list account) (ts : gmap string account) : state :=
  State us [("admin", "key-admin"); ("alice", "key-alice")] ts.

Definition start (snapshot : list account) (s : state) : world state :=
  World importer [] {["/out/teams.json" := snapshot]} 0 [] [] s.

End Sample.

(** * Properties *)

(** ** Reasoning about methods *)

Section Reasoning.
Context {Σ : Type}.

(** [post m Q w]: running [m] from [w] ends in an outcome and a world that
    satisfy [Q]. *)
Definition post {A} (m : M Σ A) (Q : result A → world Σ → Prop) (w : world Σ) : Prop :=
  Q (m w).1 (m w).2.

Lemma post_bind {A B} (m : M Σ A) (k : A → M Σ B) Q w :
  post m (λ r w', match r with
                  | Ok a => post (k a) Q w'
                  | Raise e => Q (Raise e) w'
                  | Diverge => Q Diverge w'
                  end) w →
  post (bind m k) Q w.
Proof. unfold post, bind. by destruct (m w) as [[| |] ?]. Qed.

Lemma post_try {A} (m : M Σ A) (h : exn → M Σ A) Q w :
  post m (λ r w', match r with
                  | Raise e => post (h e) Q w'
                  | _ => Q r w'
                  end) w →
  post (try_except m h) Q w.
Proof. unfold post, try_except. by destruct (m w) as [[| |] ?]. Qed.

Lemma post_mono {A} (m : M Σ A) (Q Q' : result A → world Σ → Prop) w :
  post m Q w → (∀ r w', Q r w' → Q' r w') → post m Q' w.
Proof. unfold post. auto. Qed.

Lemma post_eq {A} (m : M Σ A) (Q : result A → world Σ → Prop) w r w' :
  m w = (r, w') → Q r w' → post m Q w.
Proof. unfold post. by intros ->. Qed.

Lemma post_ext {A} (m m' : M Σ A) (Q : result A → world Σ → Prop) w :
  m w = m' w → post m' Q w → post m Q w.
Proof. unfold post. by intros ->. Qed.

Lemma post_inv {A} (m : M Σ A) (Q : result A → world Σ → Prop) w r w' :
  post m Q w → m w = (r, w') → Q r w'.
Proof. unfold post. intros HQ E. by rewrite E in HQ. Qed.

(** [w'] differs from [w] in its log at most. *)
Definition only_logged (w w' : world Σ) : Prop := w' = set_logs (logs w') w.

Lemma only_logged_refl (w : world Σ) : only_logged w w.
Proof. by destruct w. Qed.

Lemma only_logged_trans (w1 w2 w3 : world Σ) :
  only_logged w1 w2 → only_logged w2 w3 → only_logged w1 w3.
Proof. unfold only_logged. intros -> ->. by destruct w1. Qed.

Lemma logging_only_logged lvl msg (w : world Σ) :
  only_logged w (logging lvl msg w).2.
Proof. by destruct w. Qed.

(** A loop whose body always completes computes a left fold. *)
Lemma for_acc_foldl {A B} (P : world Σ → world Σ → Prop) (f : B → A → B)
    (body : A → B → M Σ B) (l : list A) :
  (∀ w, P w w) →
  (∀ w1 w2 w3, P w1 w2 → P w2 w3 → P w1 w3) →
  (∀ x, x ∈ l → ∀ acc w, ∃ w', body x acc w = (Ok (f acc x), w') ∧ P w w') →
  ∀ acc w, ∃ w', for_acc l acc body w = (Ok (foldl f acc l), w') ∧ P w w'.
Proof.
  intros Hrefl Htrans. induction l as [|x l IH]; intros Hbody acc w; simpl.
  - exists w. by split.
  - destruct (Hbody x ltac:(left) acc w) as (w1 & E1 & P1).
    destruct (IH (λ y Hy, Hbody y ltac:(by right)) (f acc x) w1) as (w2 & E2 & P2).
    exists w2. unfold bind. rewrite E1. split; [done | by eapply Htrans].
Qed.

(** A loop stops at the first iteration that raises. *)
Lemma for_acc_raise {A B} (body : A → B → M Σ B) (l1 l2 : list A) (x : A) (e : exn) :
  (∀ y, y ∈ l1 → ∀ acc w, ∃ acc' w', body y acc w = (Ok acc', w')) →
  (∀ acc w, (body x acc w).1 = Raise e) →
  ∀ acc w, (for_acc (l1 ++ x :: l2) acc body w).1 = Raise e.
Proof.
  intros Hok Hx. induction l1 as [|y l1 IH]; intros acc w; simpl; unfold bind.
  - specialize (Hx acc w). destruct (body x acc w) as [[]?]; by simplify_eq/=.
  - destruct (Hok y ltac:(left) acc w) as (acc' & w' & ->).
    apply IH. intros z Hz. apply Hok. by right.
Qed.

Lemma for_each_app {A} (body : A → M Σ unit) (l1 l2 : list A) (w : world Σ) :
  for_each (l1 ++ l2) body w = (for_each l1 body ;; for_each l2 body) w.
Proof.
  revert w. induction l1 as [|x l1 IH]; intros w; simpl; [done|].
  unfold bind in *. destruct (body x w) as [[| |] w']; [|done..].
  by rewrite IH.
Qed.

End Reasoning.

(** ** The consistency check *)

Section Check.
Context {Σ : Type}.

Definition user_dict_of (user_list : list account) : gmap string account :=
  foldl (λ d user, <[username user := user]> d) ∅ user_list.

Lemma user_dict_of_None (user_list : list account) (name : string) :
  user_dict_of user_list !! name = None ↔ name ∉ map username user_list.
Proof.
  unfold user_dict_of.
  assert (∀ d : gmap string account,
    foldl (λ d user, <[username user := user]> d) d user_list !! name = None
    ↔ d !! name = None ∧ name ∉ map username user_list) as Hgen.
  { induction user_list as [|u l IH]; intros d; simpl.
    - split; [intros ?; split; [done | apply not_elem_of_nil] | by intros [? _]].
    - rewrite IH, lookup_insert_None, not_elem_of_cons. intuition congruence. }
  rewrite Hgen, lookup_empty. tauto.
Qed.

(** A team has an owner when some entry of its list has permission
    ['owner']. *)
Definition owners (team : account) : list member :=
  filter (λ m, permission m = "owner") (teamMembers team).

(** Every member of [team] is a known user. *)
Definition members_known (user_list : list account) (team : account) : Prop :=
  ∀ m, m ∈ teamMembers team → m_username m ∈ map username user_list.

#[global] Instance members_known_dec user_list team :
  Decision (members_known user_list team).
Proof.
  unfold members_known.
  destruct (decide (Forall (λ m, m_username m ∈ map username user_list) (teamMembers team)))
    as [Hy|Hn].
  - left. by apply Forall_forall.
  - right. intros Hall. apply Hn. by apply Forall_forall.
Defined.


Lemma owner_is_member (team : account) (o : member) (os : list member) :
  owners team = o :: os → o ∈ teamMembers team.
Proof.
  unfold owners. intros E.
  assert (o ∈ filter (λ m, permission m = "owner") (teamMembers team)) as Hin
    by (rewrite E; left).
  by apply list_elem_of_filter in Hin as [_ ?].
Qed.

(** The loop over the members of one team. *)
Lemma members_loop (user_list : list account) (team_name : string)
    (member_list : list member) (acc : bool) (w : world Σ) :
  ∃ w', for_acc member_list acc (λ member result,
          let username := m_username member in
          if decide (user_dict_of user_list !! username = None)
          then logging ERROR (not_in_user_list username team_name) ;; ret false
          else ret result) w
        = (Ok (acc && bool_decide
                 (Forall (λ m, m_username m ∈ map username user_list) member_list)), w')
        ∧ only_logged w w'.
Proof.
  destruct (for_acc_foldl (@only_logged Σ)
    (λ (acc : bool) (m : member),
       acc && bool_decide (m_username m ∈ map username user_list))
    (λ member result,
          let username := m_username member in
          if decide (user_dict_of user_list !! username = None)
          then logging ERROR (not_in_user_list username team_name) ;; ret false
          else ret result) member_list only_logged_refl only_logged_trans)
    with (acc := acc) (w := w) as (w' & E & P).
  { intros m _ b w0. simpl. destruct (decide _) as [Hn|Hn].
    - eexists. split;
        [|apply (logging_only_logged ERROR (not_in_user_list (m_username m) team_name))].
      apply user_dict_of_None in Hn. rewrite bool_decide_eq_false_2 by done.
      by rewrite andb_false_r.
    - exists w0. split; [|apply only_logged_refl].
      rewrite user_dict_of_None in Hn. apply dec_stable in Hn.
      rewrite bool_decide_eq_true_2 by done. by rewrite andb_true_r. }
  exists w'. split; [|done]. rewrite E. f_equal. f_equal.
  clear. revert acc. induction member_list as [|m l IH]; intros acc; simpl.
  - by rewrite andb_true_r.
  - rewrite IH, <- andb_assoc. f_equal.
    destruct (decide (m_username m ∈ map username user_list)) as [Hy|Hn].
    + rewrite (bool_decide_eq_true_2 _ Hy). simpl. apply bool_decide_ext.
      rewrite Forall_cons. tauto.
    + rewrite (bool_decide_eq_false_2 _ Hn). simpl. symmetry.
      apply bool_decide_eq_false_2. rewrite Forall_cons. tauto.
Qed.

(** The body of the loop over the teams, as it stands in
    [_check_teams_users_integration]. *)
Definition team_step (user_list : list account) (team : account) (result : bool)
    : M Σ bool :=
  let user_dict := user_dict_of user_list in
  let member_list := teamMembers team in
  let team_name := username team in
  let team_owner_list := filter (λ m, permission m = "owner") member_list in
  result <- (if decide (length team_owner_list ≤ 0)
             then logging ERROR (should_have_owner team_name) ;; ret false
             else ret result) ;;
  (if decide (1 < length team_owner_list)
   then let team_owner_name_list := map m_username team_owner_list in
        logging WARNING (more_than_one_owners team_name team_owner_name_list)
   else ret tt) ;;
  team_owner0 <- getitem team_owner_list 0 ;;
  let team_owner_name := m_username team_owner0 in
  result <- match user_dict !! team_owner_name with
            | Some team_owner =>
                (if negb (admin team_owner)
                 then logging WARNING (owner_not_admin team_owner_name team_name)
                 else ret tt) ;;
                ret result
            | None =>
                logging ERROR (not_in_user_list team_owner_name team_name) ;;
                ret false
            end ;;
  for_acc member_list result (λ member result,
    let username := m_username member in
    if decide (user_dict !! username = None)
    then logging ERROR (not_in_user_list username team_name) ;; ret false
    else ret result).

Lemma check_unfold (user_list team_list : list account) :
  _check_teams_users_integration (Σ := Σ) user_list team_list
  = (result <- for_acc team_list true (team_step user_list) ;; ret result).
Proof. reflexivity. Qed.

Lemma team_step_completes (user_list : list account) (team : account) :
  owners team ≠ [] →
  ∀ acc w, post (team_step user_list team acc)
    (λ r w', r = Ok (acc && bool_decide (members_known user_list team))
             ∧ only_logged w w') w.
Proof.
  intros Hown acc w0. unfold team_step.
  pose proof (owner_is_member team) as Hmem.
  unfold owners in Hown, Hmem.
  destruct (filter _ (teamMembers team)) as [|o os]; [done|].
  specialize (Hmem o os eq_refl). cbn zeta.
  apply post_bind. simpl. unfold post at 1. simpl.
  apply post_bind.
  apply (post_mono _ (λ r w', r = Ok tt ∧ only_logged w0 w')).
  { destruct (decide _); unfold post; simpl; (split; [done|]);
      [by destruct w0 | apply only_logged_refl]. }
  intros r w1 [-> P1].
  apply post_bind. unfold post at 1. simpl.
  apply post_bind.
  apply (post_mono _ (λ r w', ∃ b, r = Ok b ∧ only_logged w0 w' ∧
            (b = acc ∨ b = false ∧ ¬ members_known user_list team))).
  { destruct (user_dict_of user_list !! m_username o) as [u|] eqn:Elook.
    - apply post_bind.
      apply (post_mono _ (λ r w', r = Ok tt ∧ only_logged w1 w')).
      { destruct (negb _); unfold post; simpl; (split; [done|]);
          [by destruct w1 | apply only_logged_refl]. }
      intros r w2 [-> P2]. unfold post; simpl. exists acc.
      split; [done|]. split; [by eapply only_logged_trans|by left].
    - apply post_bind. unfold post; simpl. exists false. split; [done|]. split.
      + eapply only_logged_trans; [exact P1|]. by destruct w1.
      + right. split; [done|]. intros Hk. apply user_dict_of_None in Elook.
        apply Elook, Hk, Hmem. }
  intros r w2 (b & -> & P2 & Hb).
  destruct (members_loop user_list (username team) (teamMembers team) b w2)
    as (w3 & E3 & P3).
  eapply post_eq; [exact E3|]. split; [|by eapply only_logged_trans].
  f_equal. destruct Hb as [->|[-> Hn]].
  + f_equal. apply bool_decide_ext. unfold members_known. by rewrite Forall_forall.
  + simpl. rewrite bool_decide_eq_false_2 by done. by rewrite andb_false_r.
Qed.

Lemma team_step_raises (user_list : list account) (team : account) :
  owners team = [] →
  ∀ acc (w : world Σ), (team_step user_list team acc w).1 = Raise IndexError.
Proof.
  intros Hown acc w. unfold team_step. unfold owners in Hown. rewrite Hown.
  reflexivity.
Qed.


(** When every team has an owner the check completes, and its verdict is
    whether every member of every team is a known user. *)
Lemma check_completes (user_list team_list : list account) :
  Forall (λ team, owners team ≠ []) team_list →
  ∀ w : world Σ, ∃ w',
    _check_teams_users_integration user_list team_list w
    = (Ok (bool_decide (Forall (members_known user_list) team_list)), w')
    ∧ only_logged w w'.
Proof.
  intros Hown w. rewrite check_unfold.
  destruct (for_acc_foldl (@only_logged Σ)
    (λ (acc : bool) (team : account), acc && bool_decide (members_known user_list team))
    (team_step user_list) team_list only_logged_refl only_logged_trans)
    with (acc := true) (w := w) as (w' & E & P).
  { intros team Hin acc w0. rewrite Forall_forall in Hown.
    pose proof (team_step_completes user_list team (Hown team Hin) acc w0) as [E P].
    eexists. split; [|exact P]. by apply injective_projections. }
  exists w'. unfold bind. rewrite E. split; [|done]. unfold ret. f_equal. f_equal.
  clear.
  assert (∀ acc, foldl (λ (acc : bool) (team : account),
       acc && bool_decide (members_known user_list team)) acc team_list
     = acc && bool_decide (Forall (members_known user_list) team_list)) as Hgen.
  { induction team_list as [|t l IH]; intros acc; simpl.
    - by rewrite andb_true_r.
    - rewrite IH, <- andb_assoc. f_equal.
      destruct (decide (members_known user_list t)) as [Hy|Hn].
      + rewrite (bool_decide_eq_true_2 _ Hy). simpl. apply bool_decide_ext.
        rewrite Forall_cons. tauto.
      + rewrite (bool_decide_eq_false_2 _ Hn). simpl. symmetry.
        apply bool_decide_eq_false_2. rewrite Forall_cons. tauto. }
  by rewrite Hgen.
Qed.

(** As soon as one team has no owner the check raises [IndexError]: the
    lookup [team_owner_list[0]] runs although the list is empty. *)
Lemma check_raises (user_list team_list : list account) :
  Exists (λ team, owners team = []) team_list →
  ∀ w : world Σ,
    (_check_teams_users_integration user_list team_list w).1 = Raise IndexError.
Proof.
  intros Hex w. rewrite check_unfold.
  assert (∀ acc w, (for_acc team_list acc (team_step user_list) w).1 = Raise IndexError)
    as Hloop.
  { clear w. induction Hex as [team l Hnone|team l Hex IH]; intros acc w; simpl.
    - unfold bind. pose proof (team_step_raises user_list team Hnone acc w) as Hr.
      destruct (team_step user_list team acc w) as [[| |] ?]; by simplify_eq/=.
    - destruct (decide (owners team = [])) as [Hnone|Hsome].
      + unfold bind. pose proof (team_step_raises user_list team Hnone acc w) as Hr.
        destruct (team_step user_list team acc w) as [[| |] ?]; by simplify_eq/=.
      + pose proof (team_step_completes user_list team Hsome acc w) as [E _].
        unfold bind. destruct (team_step user_list team acc w) as [r w1].
        simpl in E. subst r. apply IH. }
  unfold bind. specialize (Hloop true w).
  destruct (for_acc team_list true (team_step user_list) w) as [[| |] ?];
    by simplify_eq/=.
Qed.

End Check.

(** C1 (the check returns false for a team without owner, rather than
    raising): not so on the code.  For the team [t0], whose only entry has
    permission ['member'], and any list of users, the check logs that the
    team should have an owner and then raises [IndexError]. *)
Theorem C1_check_raises_for_ownerless_team {Σ : Type}
    (user_list : list account) (w : world Σ) :
  let '(r, w') := _check_teams_users_integration user_list [Sample.t0] w in
  r = Raise IndexError
  ∧ logs w' = logs w ++ [(ERROR, should_have_owner "t0")].
Proof. simpl. done. Qed.

(** ** The credential cache *)

Section Credentials.
Context {Σ : Type} `{Platform Σ}.

(** Whatever the transport answers, [_retrive_or_create_api_key_for_user]
    leaves the cache as it was or adds one entry to it: [None] under the
    literal key ['username']. *)
Lemma retrieve_cache (username : string) (w : world Σ) :
  post (_retrive_or_create_api_key_for_user username)
    (λ _ w', key_cache (self w') = key_cache (self w)
             ∨ key_cache (self w') = <["username" := None]> (key_cache (self w))) w.
Proof.
  unfold _retrive_or_create_api_key_for_user, post, bind, gets, ret, try_except,
    key_cache_setitem, modify.
  unfold _get_apiv2_key, _new_apiv2_key, bind, gets, ret, call_api_v1, json_apiKey, raise.
  simpl. destruct (key_cache (self w) !! username); [by left|].
  destruct (http _ (remote w)) as [[e|[st [| | |k| | |]]] s1]; simpl;
    try (by left);
    destruct (http _ s1) as [[e'|[st' [| | |k'| | |]]] s2]; simpl;
    try (by left); by right.
Qed.

(** A key that was fetched is handed back without being stored. *)
Lemma retrieve_fetched_not_cached (username k : string) (w : world Σ) s st :
  key_cache (self w) !! username = None →
  http (Request (host (self w)) (API_KEY username) GET (Some (api_key (self w)))
          (Some (JExpiry (now w + one_week))) (ca_path (self w))) (remote w)
  = (inr (Response st (JApiKey k)), s) →
  ∃ w', _retrive_or_create_api_key_for_user username w = (Ok (Some k), w')
        ∧ key_cache (self w') = key_cache (self w).
Proof.
  intros Hmiss Hget.
  unfold _retrive_or_create_api_key_for_user, bind, gets, ret, try_except,
    key_cache_setitem, modify.
  unfold _get_apiv2_key, bind, gets, ret, call_api_v1, json_apiKey.
  simpl. rewrite Hmiss, Hget. simpl. eauto.
Qed.

End Credentials.

(** C3 (a fetched credential is cached under the requested username, so a
    second request for it costs no network call): not so on the code.  With
    alice's key on record at the workspace, two calls for ["alice"] each
    send a GET for the key, and the cache is still empty after both. *)
Theorem C3_fetched_key_is_not_cached :
  let w0 := Sample.start [] (Sample.workspace [Sample.alice] ∅) in
  let '(r1, w1) := _retrive_or_create_api_key_for_user "alice" w0 in
  let '(r2, w2) := _retrive_or_create_api_key_for_user "alice" w1 in
  r1 = Ok (Some "key-alice") ∧ r2 = Ok (Some "key-alice")
  ∧ key_cache (self w1) = ∅ ∧ key_cache (self w2) = ∅
  ∧ map rq_endpoint (sent w1) = [API_KEY "alice"]
  ∧ map rq_endpoint (sent w2) = [API_KEY "alice"; API_KEY "alice"]
  ∧ map rq_method (sent w2) = [GET; GET].
Proof. vm_compute. repeat split. Qed.

(** ** What leaves the heap alone *)

Section Frame.
Context {Σ : Type} `{Platform Σ}.

Definition keeps_heap {A} (m : M Σ A) : Prop := ∀ w, heap (m w).2 = heap w.

Lemma keeps_heap_ret {A} (a : A) : keeps_heap (ret a).
Proof. done. Qed.
Lemma keeps_heap_raise {A} (e : exn) : keeps_heap (raise (A := A) e).
Proof. done. Qed.
Lemma keeps_heap_gets {A} (f : world Σ → A) : keeps_heap (gets f).
Proof. done. Qed.
Lemma keeps_heap_logging lvl msg : keeps_heap (logging lvl msg).
Proof. done. Qed.
Lemma keeps_heap_key_cache_setitem k v : keeps_heap (key_cache_setitem k v).
Proof. done. Qed.
Lemma keeps_heap_getitem {A} (l : list A) i : keeps_heap (getitem l i).
Proof. unfold getitem. by destruct (l !! i). Qed.
Lemma keeps_heap_deref r : keeps_heap (deref r).
Proof. done. Qed.

Lemma keeps_heap_bind {A B} (m : M Σ A) (k : A → M Σ B) :
  keeps_heap m → (∀ a, keeps_heap (k a)) → keeps_heap (bind m k).
Proof.
  intros Hm Hk w. unfold bind. specialize (Hm w).
  destruct (m w) as [[a| |] w']; simpl in *; [|done..]. by rewrite Hk.
Qed.

Lemma keeps_heap_try {A} (m : M Σ A) (h : exn → M Σ A) :
  keeps_heap m → (∀ e, keeps_heap (h e)) → keeps_heap (try_except m h).
Proof.
  intros Hm Hh w. unfold try_except. specialize (Hm w).
  destruct (m w) as [[|e|] w']; simpl in *; [done| |done]. by rewrite Hh.
Qed.

Lemma keeps_heap_for_each {A} (l : list A) (body : A → M Σ unit) :
  (∀ x, keeps_heap (body x)) → keeps_heap (for_each l body).
Proof.
  intros Hbody. induction l as [|x l IH]; simpl; [done|].
  apply keeps_heap_bind; auto.
Qed.

Lemma keeps_heap_call_api_v1 host endpoint method api_key json_data ca_path :
  keeps_heap (call_api_v1 host endpoint method api_key json_data ca_path).
Proof. intros w. unfold call_api_v1. by destruct (http _ _) as [[|] ?]. Qed.

Create HintDb frame.
#[local] Hint Resolve keeps_heap_ret keeps_heap_raise keeps_heap_gets
  keeps_heap_logging keeps_heap_key_cache_setitem keeps_heap_getitem
  keeps_heap_deref keeps_heap_call_api_v1 : frame.

Ltac frame_step :=
  intros;
  lazymatch goal with
  | |- keeps_heap (bind _ _) => apply keeps_heap_bind
  | |- keeps_heap (try_except _ _) => apply keeps_heap_try
  | |- keeps_heap (for_each _ _) => apply keeps_heap_for_each
  | |- keeps_heap (match ?x with _ => _ end) => destruct x
  | |- keeps_heap _ => solve [auto with frame]
  end.
Ltac frame := repeat frame_step.

Lemma keeps_heap_json_apiKey j : keeps_heap (json_apiKey j).
Proof. unfold json_apiKey. frame. Qed.
Lemma keeps_heap_json_message j : keeps_heap (json_message j).
Proof. unfold json_message. frame. Qed.
Lemma keeps_heap_json_username j : keeps_heap (json_username j).
Proof. unfold json_username. frame. Qed.
#[local] Hint Resolve keeps_heap_json_apiKey keeps_heap_json_message
  keeps_heap_json_username : frame.

Lemma keeps_heap_get_apiv2_key u : keeps_heap (_get_apiv2_key u).
Proof. unfold _get_apiv2_key. frame. Qed.
Lemma keeps_heap_new_apiv2_key u : keeps_heap (_new_apiv2_key u).
Proof. unfold _new_apiv2_key. frame. Qed.
#[local] Hint Resolve keeps_heap_get_apiv2_key keeps_heap_new_apiv2_key : frame.

Lemma keeps_heap_retrieve u : keeps_heap (_retrive_or_create_api_key_for_user u).
Proof. unfold _retrive_or_create_api_key_for_user. frame. Qed.
#[local] Hint Resolve keeps_heap_retrieve : frame.

Lemma keeps_heap_self_call_api_v1 endpoint method json_data username :
  keeps_heap (self_call_api_v1 endpoint method json_data username).
Proof. unfold self_call_api_v1. frame. Qed.
#[local] Hint Resolve keeps_heap_self_call_api_v1 : frame.

Lemma keeps_heap_del_team team : keeps_heap (_del_team team).
Proof. unfold _del_team, _del_teamv1. frame. Qed.

Lemma keeps_heap_add_team team username : keeps_heap (_add_team team username).
Proof. unfold _add_team, _add_teamv1. frame. Qed.

Lemma keeps_heap_add_team_member team_name member username :
  keeps_heap (add_team_member team_name member username).
Proof. unfold add_team_member, _add_team_memberv1. frame. Qed.

End Frame.

(** ** Replaying one team *)

Section Replay.
Context {Σ : Type} `{Platform Σ}.

(** Replaying a team of the snapshot: its member dictionaries are put on the
    heap and [_create_or_update_team] runs on the result, as in the loop of
    [_import_teams]. *)
Definition replay (team : account) : M Σ unit :=
  t <- load team ;; _create_or_update_team t.

(** The entries of a team that are owners in the heap [h], and the others. *)
Definition owner_refs (h : list member) (team : team_obj) : list ref :=
  filter (λ r, permission (h !!! r) = "owner") (teamMembers team).
Definition other_refs (h : list member) (team : team_obj) : list ref :=
  filter (λ r, permission (h !!! r) ≠ "owner") (teamMembers team).

(** [m['permission'] = 'admin'] on the heap. *)
Definition set_admin (h : list member) (r : ref) : list member :=
  <[r := Member (m_username (h !!! r)) "admin" (m_fields (h !!! r))]> h.

(** The bodies of the two loops of [_create_or_update_team]. *)
Definition member_step (team_name owner_name : string) (m : ref) : M Σ unit :=
  m' <- deref m ;;
  let member := _translate_member m' in
  add_team_member team_name member (Some owner_name).

Definition extra_owner_step (team_name : string) (m : ref) : M Σ unit :=
  m' <- deref m ;;
  let owner_name := m_username m' in
  logging WARNING (converted_to_admin team_name owner_name) ;;
  setitem_permission m "admin" ;;
  m' <- deref m ;;
  let member := _translate_member m' in
  add_team_member team_name member (Some owner_name).

(** What follows the deletion in [_create_or_update_team]. *)
Definition rebuild (team : team_obj) (team_owner_list : list ref)
    (owner_name : string) : M Σ unit :=
  _add_team (_translate_team team) (Some owner_name) ;;
  filtered_member_list <-
    filter_refs (λ m, permission m ≠ "owner") (teamMembers team) ;;
  for_each filtered_member_list (member_step (username team) owner_name) ;;
  for_each (seq 0 (length team_owner_list)) (λ i,
    if decide (i = 0) then ret tt
    else m <- getitem team_owner_list i ;; extra_owner_step (username team) m).

Lemma create_or_update_unfold (team : team_obj) :
  _create_or_update_team team
  = (team_owner_list <-
       filter_refs (λ m, permission m = "owner") (teamMembers team) ;;
     team_owner <- getitem team_owner_list 0 ;;
     owner <- deref team_owner ;;
     _del_team team ;;
     rebuild team team_owner_list (m_username owner)).
Proof. reflexivity. Qed.

(** The loop over [range(len(l))] that skips index 0 is a loop over the tail
    of [l]. *)
Lemma for_each_skip_first {A} (l : list A) (f : A → M Σ unit) (w : world Σ) :
  for_each (seq 0 (length l)) (λ i,
    if decide (i = 0) then ret tt else m <- getitem l i ;; f m) w
  = for_each (drop 1 l) f w.
Proof.
  destruct l as [|x l]; [done|]. simpl. unfold bind at 1. simpl.
  rewrite drop_0.
  assert (∀ (pre : list A) w, 0 < length pre →
    for_each (seq (length pre) (length l)) (λ i,
      if decide (i = 0) then ret tt else m <- getitem (pre ++ l) i ;; f m) w
    = for_each l f w) as Hgen; [|apply (Hgen [x]); simpl; lia].
  clear w. induction l as [|y l IH]; intros pre w Hpre; simpl; [done|].
  destruct (decide (length pre = 0)) as [?|_]; [lia|].
  unfold bind at 1 2. unfold getitem at 1.
  rewrite list_lookup_middle by done. simpl.
  unfold bind at 2. destruct (f y w) as [[[]| |] w']; [|done..].
  specialize (IH (pre ++ [y]) w').
  rewrite length_app, <- app_assoc, Nat.add_1_r in IH. simpl in IH.
  apply IH. lia.
Qed.

Lemma post_keeps_heap {A} (m : M Σ A) (w : world Σ) :
  keeps_heap m → post m (λ _ w', heap w' = heap w) w.
Proof. intros Hm. apply Hm. Qed.

Lemma keeps_heap_member_step team_name owner_name m :
  keeps_heap (member_step team_name owner_name m).
Proof.
  unfold member_step. apply keeps_heap_bind; [done|].
  intros m'. apply keeps_heap_add_team_member.
Qed.

(** One round of the second loop rewrites one dictionary, whether or not the
    call that follows succeeds. *)
Lemma extra_owner_step_heap (team_name : string) (m : ref) (w : world Σ) :
  heap (extra_owner_step team_name m w).2 = set_admin (heap w) m.
Proof.
  change (post (extra_owner_step team_name m)
            (λ _ w', heap w' = set_admin (heap w) m) w).
  unfold extra_owner_step.
  do 4 (apply post_bind; unfold post at 1; simpl).
  unfold post. by rewrite keeps_heap_add_team_member.
Qed.

Lemma extra_owner_loop (team_name : string) (l : list ref) (w : world Σ) :
  post (for_each l (extra_owner_step team_name))
    (λ r w', ∃ k, heap w' = foldl set_admin (heap w) (take k l)
                  ∧ (r = Ok tt → k = length l)) w.
Proof.
  revert w. induction l as [|x l IH]; intros w.
  - exists 0. done.
  - simpl. apply post_bind. unfold post at 1.
    pose proof (extra_owner_step_heap team_name x w) as Hx.
    destruct (extra_owner_step team_name x w) as [[[]|e|] w1]; simpl in *.
    + eapply post_mono; [apply IH|]. intros r w' (k & Hh & Hk).
      exists (S k). simpl. rewrite <- Hx. split; [done|]. intros ->. by rewrite Hk.
    + exists 1. simpl. by split.
    + exists 1. simpl. by split.
Qed.

Lemma set_admin_length h r : length (set_admin h r) = length h.
Proof. apply length_insert. Qed.

Lemma foldl_set_admin_length l h : length (foldl set_admin h l) = length h.
Proof.
  revert h. induction l as [|x l IH]; intros h; simpl; [done|].
  by rewrite IH, set_admin_length.
Qed.

Lemma foldl_set_admin_lookup (l : list ref) (h : list member) (r : ref) :
  Forall (λ r, r < length h) l →
  foldl set_admin h l !!! r
  = if decide (r ∈ l)
    then Member (m_username (h !!! r)) "admin" (m_fields (h !!! r))
    else h !!! r.
Proof.
  revert h. induction l as [|x l IH]; intros h Hl; cbn [foldl].
  - rewrite decide_False; [done | apply not_elem_of_nil].
  - apply Forall_cons in Hl as [Hx Hl].
    rewrite IH by (by rewrite set_admin_length).
    unfold set_admin. destruct (decide (r = x)) as [->|Hne].
    + rewrite list_lookup_total_insert_eq by done. simpl.
      rewrite (decide_True (P := x ∈ x :: l)) by left.
      by destruct (decide (x ∈ l)).
    + rewrite list_lookup_total_insert_ne by done.
      destruct (decide (r ∈ l)) as [Hin|Hnin].
      * by rewrite (decide_True (P := r ∈ x :: l)) by (by right).
      * rewrite (decide_False (P := r ∈ x :: l)); [done|].
        rewrite not_elem_of_cons. done.
Qed.

Lemma bind_ext {A B} (m : M Σ A) (k k' : A → M Σ B) (w : world Σ) :
  (∀ a w', k a w' = k' a w') → bind m k w = bind m k' w.
Proof. intros Hk. unfold bind. by destruct (m w) as [[| |] ?]. Qed.

Lemma rebuild_unfold (team : team_obj) (o : ref) (os : list ref)
    (owner_name : string) (w : world Σ) :
  rebuild team (o :: os) owner_name w
  = (_add_team (_translate_team team) (Some owner_name) ;;
     filtered_member_list <-
       filter_refs (λ m, permission m ≠ "owner") (teamMembers team) ;;
     for_each filtered_member_list (member_step (username team) owner_name) ;;
     for_each os (extra_owner_step (username team))) w.
Proof.
  unfold rebuild. apply bind_ext. intros _ w1. apply bind_ext. intros l w2.
  apply bind_ext. intros _ w3. by rewrite (for_each_skip_first (o :: os)).
Qed.

#[local] Arguments rebuild : simpl never.

(** The heap after [_create_or_update_team], however it ends: some of the
    owners after the first were rewritten, in order; all of them when the
    method returns. *)
Lemma create_or_update_heap (team : team_obj) (w : world Σ) :
  post (_create_or_update_team team)
    (λ r w', ∃ k,
       heap w' = foldl set_admin (heap w) (take k (drop 1 (owner_refs (heap w) team)))
       ∧ (r = Ok tt → k = length (drop 1 (owner_refs (heap w) team)))) w.
Proof.
  rewrite create_or_update_unfold.
  apply post_bind. unfold post at 1. simpl. fold (owner_refs (heap w) team).
  apply post_bind. unfold getitem.
  destruct (owner_refs (heap w) team) as [|o os] eqn:Eo; simpl.
  { exists 0. done. }
  unfold post at 1. simpl.
  apply post_bind. unfold post at 1. simpl.
  apply post_bind. eapply post_mono; [apply post_keeps_heap, keeps_heap_del_team|].
  intros r1 w1 H1. simpl in H1.
  destruct r1 as [[]| |]; [|by exists 0..].
  eapply post_ext; [apply rebuild_unfold|].
  apply post_bind.
  eapply post_mono; [apply post_keeps_heap, keeps_heap_add_team|].
  intros r2 w2 H2. simpl in H2.
  destruct r2 as [[]| |]; [|exists 0; simpl; split; [congruence|done]..].
  apply post_bind. unfold post at 1. simpl.
  apply post_bind.
  eapply post_mono;
    [apply post_keeps_heap, keeps_heap_for_each; intros; apply keeps_heap_member_step|].
  intros r3 w3 H3. simpl in H3.
  destruct r3 as [[]| |]; [|exists 0; simpl; split; [congruence|done]..].
  rewrite drop_0.
  pose proof (extra_owner_loop (username team) os w3) as (k & Hh & Hk).
  exists k. split; [|done]. rewrite Hh. congruence.
Qed.

End Replay.

(** C4, amended (a team without owner fails with [IndexError], the
    built-in error of [team_owner_list[0]], before anything else happens):
    when no entry of the team has permission ['owner'],
    [_create_or_update_team] raises [IndexError] and leaves the world as it
    found it; no request is sent. *)
Theorem C4_ownerless_team_raises_IndexError {Σ : Type} `{Platform Σ}
    (team : team_obj) (w : world Σ) :
  owner_refs (heap w) team = [] →
  _create_or_update_team team w = (Raise IndexError, w).
Proof.
  intros Hnone. rewrite create_or_update_unfold.
  unfold bind, filter_refs. fold (owner_refs (heap w) team). by rewrite Hnone.
Qed.

Lemma C4_ownerless_team_raises_IndexError_witness :
  let team : team_obj := Account "t0" false [0] [] in
  let w := World Sample.importer (teamMembers Sample.t0) ∅ 0 [] []
             (Sample.workspace [Sample.bob] ∅) in
  owner_refs (heap w) team = []
  ∧ _create_or_update_team team w = (Raise IndexError, w).
Proof.
  split; [reflexivity|].
  apply (C4_ownerless_team_raises_IndexError
           (Account "t0" false [0] [])
           (World Sample.importer (teamMembers Sample.t0) ∅ 0 [] []
              (Sample.workspace [Sample.bob] ∅))).
  reflexivity.
Defined.

(** C4 as stated fails: replaying the ownerless team [t0] does not end in
    an exception of class [MalformedTeamError]. *)
Lemma C4_not_a_MalformedTeamError :
  ¬ ∃ e, (replay Sample.t0
            (Sample.start [] (Sample.workspace [Sample.bob] ∅))).1 = Raise e
         ∧ exn_class e = "MalformedTeamError".
Proof.
  intros (e & He & Hc). vm_compute in He.
  injection He as <-. discriminate Hc.
Qed.

(** C10 (replay rewrites its input in place): when
    [_create_or_update_team] returns, the member dictionaries of the team
    that were owners, except the first, have their ['permission'] set to
    ['admin'] on the heap, with their other keys as before; every other
    dictionary on the heap is as it was. *)
Theorem C10_extra_owners_rewritten_in_place {Σ : Type} `{Platform Σ}
    (team : team_obj) (w w' : world Σ) :
  Forall (λ r, r < length (heap w)) (teamMembers team) →
  _create_or_update_team team w = (Ok tt, w') →
  length (heap w') = length (heap w)
  ∧ ∀ r : ref,
      heap w' !!! r
      = if decide (r ∈ drop 1 (owner_refs (heap w) team))
        then Member (m_username (heap w !!! r)) "admin" (m_fields (heap w !!! r))
        else heap w !!! r.
Proof.
  intros Hvalid Hrun.
  pose proof (create_or_update_heap team w) as Hpost.
  apply (post_inv _ _ _ _ _ Hpost) in Hrun as (k & Hh & Hk).
  rewrite (Hk eq_refl), firstn_all in Hh. rewrite Hh.
  split; [apply foldl_set_admin_length|].
  intros r. apply foldl_set_admin_lookup.
  rewrite Forall_forall in Hvalid. apply Forall_forall. intros x Hx.
  apply Hvalid. apply subseteq_drop in Hx. unfold owner_refs in Hx.
  by apply list_elem_of_filter in Hx as [_ ?].
Qed.

Lemma C10_extra_owners_rewritten_in_place_witness :
  let team : team_obj := Account "t2" false [0; 1; 2] [] in
  let w := World Sample.importer (teamMembers Sample.t2) ∅ 0 [] []
             (Sample.workspace [Sample.alice; Sample.bob; Sample.carol] ∅) in
  let w' := (_create_or_update_team team w).2 in
  heap w' = [Member "alice" "owner" []; Member "bob" "member" [("id", "7")];
             Member "carol" "admin" []]
  ∧ length (heap w') = length (heap w)
  ∧ ∀ r : ref,
      heap w' !!! r
      = if decide (r ∈ drop 1 (owner_refs (heap w) team))
        then Member (m_username (heap w !!! r)) "admin" (m_fields (heap w !!! r))
        else heap w !!! r.
Proof.
  split; [vm_compute; reflexivity|].
  apply (C10_extra_owners_rewritten_in_place
           (Account "t2" false [0; 1; 2] [])
           (World Sample.importer (teamMembers Sample.t2) ∅ 0 [] []
              (Sample.workspace [Sample.alice; Sample.bob; Sample.carol] ∅))).
  - repeat constructor.
  - vm_compute. reflexivity.
Defined.

(** ** Importing the snapshot *)

(** C2, amended (a failure while replaying one team ends the import): if
    the teams before [t] replay without error and replaying [t] raises [e],
    then [_import_teams] raises [e] and stops in the world that the failed
    replay left, so that no team after [t] is replayed. *)
Theorem C2_import_stops_at_first_failure {Σ : Type} `{Platform Σ}
    (fuel : nat) (rows : list account) (l1 l2 : list team_obj) (t : team_obj)
    (e : exn) (w w1 w2 w3 : world Σ) :
  let filepath := get_teams_metadata_file_path (top_level_dir (self w)) in
  files w !! filepath = Some rows →
  load_all rows w = (Ok (l1 ++ t :: l2), w1) →
  for_each l1 _create_or_update_team
    (logging INFO (importing_from filepath) w1).2 = (Ok tt, w2) →
  _create_or_update_team t w2 = (Raise e, w3) →
  _import_teams fuel w = (Raise e, w3).
Proof.
  intros filepath Hfile Hload Hbefore Hfail. unfold filepath in *. clear filepath.
  unfold _import_teams. unfold bind at 1. unfold gets at 1. cbv beta iota zeta.
  unfold bind at 1. unfold read_json_file, bind at 1, gets at 1.
  rewrite Hfile. unfold ret at 1. unfold bind at 1. rewrite Hload.
  unfold bind at 1.
  destruct (logging INFO _ w1) as [r0 w0] eqn:Elog.
  unfold logging, modify in Elog. injection Elog as <- <-.
  unfold bind at 1. rewrite for_each_app. unfold bind at 1.
  unfold logging, modify in Hbefore. simpl in Hbefore.
  change (for_each l1 (λ team, _create_or_update_team team))
    with (for_each l1 (_create_or_update_team (Σ := Σ))).
  rewrite Hbefore. simpl. unfold bind at 1. by rewrite Hfail.
Qed.

Lemma C2_import_stops_at_first_failure_witness :
  let rows := [Sample.t1; Sample.t0; Sample.t2] in
  let w := Sample.start rows
             (Sample.workspace [Sample.alice; Sample.bob; Sample.carol] ∅) in
  let w1 := (load_all rows w).2 in
  let w2 := (for_each [Account "t1" false [0; 1] []] _create_or_update_team
               (logging INFO (importing_from "/out/teams.json") w1).2).2 in
  let w3 := (_create_or_update_team (Account "t0" false [2] [] : team_obj) w2).2 in
  _import_teams 5 w = (Raise IndexError, w3)
  ∧ Workspace.members_of (remote w3) "t1"
    = Some [Member "alice" "owner" []; Member "bob" "member" []]
  ∧ Workspace.members_of (remote w3) "t2" = None.
Proof.
  intros rows w w1 w2 w3. split; [|vm_compute; split; reflexivity].
  apply (C2_import_stops_at_first_failure 5 rows
           [Account "t1" false [0; 1] []] [Account "t2" false [3; 4; 5] []]
           (Account "t0" false [2] []) IndexError w w1 w2 w3).
  - vm_compute. reflexivity.
  - vm_compute. reflexivity.
  - vm_compute. reflexivity.
  - vm_compute. reflexivity.
Defined.

(** C2 as stated fails: with the snapshot [t0; t1], the replay of [t0]
    raises [IndexError]; the import ends with that error, no request has
    been sent and the team [t1] does not exist at the destination. *)
Lemma C2_later_teams_are_not_replayed :
  let w0 := Sample.start [Sample.t0; Sample.t1]
              (Sample.workspace [Sample.alice; Sample.bob] ∅) in
  (replay Sample.t0 w0).1 = Raise IndexError
  ∧ (_import_teams 5 w0).1 = Raise IndexError
  ∧ sent (_import_teams 5 w0).2 = []
  ∧ Workspace.members_of (remote (_import_teams 5 w0).2) "t1" = None
  ∧ (replay Sample.t1 w0).1 = Ok tt.
Proof. vm_compute. repeat split. Qed.

(** ** Adding a member *)

(** [sub] occurs in [s]. *)
Definition contains (s sub : string) : Prop :=
  ∃ pre post, s = pre +:+ sub +:+ post.

Lemma append_cons (c : Ascii.ascii) (a b : string) :
  String c a +:+ b = String c (a +:+ b).
Proof. reflexivity. Qed.

Lemma append_nil_l (b : string) : "" +:+ b = b.
Proof. reflexivity. Qed.

Lemma prefix_spec (a b : string) :
  String.prefix a b = true ↔ ∃ rest, b = a +:+ rest.
Proof.
  revert b. induction a as [|c a IH]; intros b; simpl.
  - destruct b; split; eauto.
  - destruct b as [|d b]; simpl.
    + split; [done | by intros [? ?]].
    + destruct (Ascii.ascii_dec c d) as [->|Hne].
      * rewrite IH. split; intros [rest Hr]; exists rest.
        -- by subst.
        -- rewrite append_cons in Hr. by injection Hr.
      * split; [done | intros [? Hr]]. rewrite append_cons in Hr. congruence.
Qed.

Lemma contains_cons (c : Ascii.ascii) (s sub : string) :
  contains (String c s) sub ↔ String.prefix sub (String c s) = true ∨ contains s sub.
Proof.
  rewrite prefix_spec. unfold contains. split.
  - intros ([|c' pre] & post & Heq).
    + left. rewrite append_nil_l in Heq. eauto.
    + right. rewrite append_cons in Heq. injection Heq as -> ->. eauto.
  - intros [[rest Hr]|(pre & post & ->)].
    + exists "", rest. done.
    + exists (String c pre), post. done.
Qed.

Lemma find_from_spec (sub s : string) (i : Z) :
  (0 ≤ i)%Z → (find_from sub s i < 0)%Z ↔ ¬ contains s sub.
Proof.
  revert i. induction s as [|c s IH]; intros i Hi.
  - destruct sub as [|d sub]; simpl.
    + split; [intros; lia|]. intros Hn. exfalso. apply Hn. by exists "", "".
    + split; [|intros; lia]. intros _ (pre & post & Heq).
      destruct pre; [rewrite append_nil_l in Heq|]; by rewrite append_cons in Heq.
  - cbn [find_from]. destruct (String.prefix sub (String c s)) eqn:Ep.
    + split; [intros; lia|]. intros Hn. exfalso. apply Hn, contains_cons. by left.
    + rewrite IH by lia. rewrite contains_cons, Ep. intuition congruence.
Qed.

Lemma find_from_found (sub s : string) (i : Z) :
  (0 ≤ i)%Z → ¬ (find_from sub s i < 0)%Z → contains s sub.
Proof.
  revert i. induction s as [|c s IH]; intros i Hi.
  - destruct sub as [|d sub]; simpl; [|lia]. intros _. by exists "", "".
  - cbn [find_from]. destruct (String.prefix sub (String c s)) eqn:Ep.
    + intros _. apply contains_cons. by left.
    + intros Hf. apply contains_cons. right. apply (IH (i + 1)%Z); [lia|done].
Qed.

(** [s.find(sub) < 0] exactly when [sub] does not occur in [s]. *)
Lemma find_negative (s sub : string) : (find s sub < 0)%Z ↔ ¬ contains s sub.
Proof. by apply find_from_spec. Qed.

#[global] Instance contains_dec (s sub : string) : Decision (contains s sub).
Proof.
  destruct (decide (find s sub < 0)%Z) as [Hf|Hf].
  - right. by apply find_negative.
  - left. by apply (find_from_found sub s 0).
Defined.

(** The error of a membership that exists already: an [HTTPError] whose
    body carries a message that contains "is already a member of this
    team". *)
Definition already_member_error (e : exn) : Prop :=
  ∃ resp message,
    e = HTTPError resp ∧ body resp = JMessage message
    ∧ contains message already_a_member.

(** C6 ([add_team_member] raises exactly when the membership call fails
    with an error other than the already-a-member conflict): with [call]
    the outcome of [_add_team_memberv1] after the opening log line,
    [add_team_member] raises if and only if [call] raises an error that is
    not an already-a-member error; an already-a-member error is logged as a
    warning and the method returns normally. *)
Theorem C6_add_team_member_raises_iff {Σ : Type} `{Platform Σ}
    (team_name : string) (member : member) (username : option string)
    (w : world Σ) :
  let w0 := (logging INFO (begin_add_member (m_username member) team_name) w).2 in
  let call := _add_team_memberv1 team_name member username w0 in
  ((∃ e, (add_team_member team_name member username w).1 = Raise e)
   ↔ (∃ e, call.1 = Raise e ∧ ¬ already_member_error e))
  ∧ (∀ e, call.1 = Raise e → already_member_error e →
       add_team_member team_name member username w
       = (Ok tt,
          (logging WARNING (already_added (m_username member) team_name) call.2).2)).
Proof.
  intros w0 call.
  assert (add_team_member team_name member username w
          = match call with
            | (Ok _, w1) => (Ok tt, w1)
            | (Raise e, w1) =>
                match e with
                | HTTPError resp =>
                    cause <- json_message (body resp) ;;
                    if decide (find cause already_a_member < 0)%Z
                    then raise e
                    else logging WARNING
                           (already_added (m_username member) team_name)
                | _ => raise e
                end w1
            | (Diverge, w1) => (Diverge, w1)
            end) as ->.
  { subst call w0. unfold add_team_member, try_except, bind, logging, modify.
    simpl. by destruct (_add_team_memberv1 _ _ _ _) as [[| |] ?]. }
  destruct call as [[j|e|] w1]; simpl.
  - split; [|by intros ? [=]]. split; intros [e He]; [done|by destruct He].
  - assert (Decision (already_member_error e)) as [Hyes|Hno].
    { unfold already_member_error.
      destruct e as [| | |[st [| | | | |message|]]| | |];
        try (right; intros (? & ? & ? & ? & ?); simplify_eq/=; done).
      destruct (decide (find message already_a_member < 0)%Z) as [Hf|Hf].
      - right. intros (? & ? & ? & ? & Hc). simplify_eq/=. by apply find_negative in Hf.
      - left. eexists _, _. split; [done|]. split; [done|].
        apply dec_stable. by rewrite <- find_negative. }
    + destruct Hyes as (resp & message & -> & Hbody & Hc).
      destruct resp as [st b]. simpl in Hbody. subst b. simpl.
      unfold bind, json_message, ret.
      destruct (decide (find message already_a_member < 0)%Z) as [Hf|Hf].
      { by apply find_negative in Hf. }
      split; [|reflexivity]. split.
      * by intros [e [=]].
      * intros (e & [= <-] & Hn). exfalso. apply Hn. by eexists _, _.
    + split; [|by intros ? [= <-]]. split; [|intros _].
      * intros _. by exists e.
      * destruct e as [| | |[st b]| | |]; try by eexists.
        simpl. unfold bind, json_message.
        destruct b; try by eexists.
        unfold ret. destruct (decide _) as [Hf|Hf]; [by eexists|].
        exfalso. apply Hno. eexists _, _. split; [done|]. split; [done|].
        apply dec_stable. by rewrite <- find_negative.
  - split; [|by intros ? [=]]. split; intros [e He]; [done|by destruct He].
Qed.

(** ** The paged listing *)

(** The number of pages of size [p] that [n] rows fill. *)
Definition ceil_div (n p : nat) : nat := (n + p - 1) / p.

Lemma ceil_div_le (n p k : nat) : 0 < p → ceil_div n p ≤ k ↔ n ≤ k * p.
Proof.
  intros Hp. unfold ceil_div. split.
  - intros Hc. destruct (decide (n ≤ k * p)) as [|Hn]; [done|]. exfalso.
    assert (k + 1 ≤ (n + p - 1) / p); [|lia].
    apply Nat.div_le_lower_bound; lia.
  - intros Hn. assert ((n + p - 1) / p < k + 1); [|lia].
    apply Nat.Div0.div_lt_upper_bound. lia.
Qed.

Section Collector.
Context {Σ : Type} `{Platform Σ}.

(** The request [get_team_or_user_listv1_paged] sends for one page. *)
Definition list_request (o : TeamBase) (offset limit : nat) (is_team : bool)
    : request :=
  Request (host o) (USER_TEAM_LIST offset limit is_team) GET
          (Some (api_key o)) None (ca_path o).

(** The workspace of [w] holds the rows [rows] in the listing selected by
    [is_team]: asked for [limit] rows from [offset] on, it answers with that
    slice, and its state stays as it is. *)
Definition serves (rows : list account) (limit : nat) (is_team : bool)
    (w : world Σ) : Prop :=
  ∀ offset, ∃ st,
    http (list_request (self w) offset limit is_team) (remote w)
    = (inr (Response st (JAccounts (take limit (drop offset rows)))), remote w).

Lemma paged_serves rows limit is_team offset (w : world Σ) :
  serves rows limit is_team w →
  get_team_or_user_listv1_paged offset limit is_team w
  = (Ok (take limit (drop offset rows)),
     set_sent (sent w ++ [list_request (self w) offset limit is_team]) w).
Proof.
  intros Hs. destruct (Hs offset) as [st E]. unfold list_request in E.
  unfold get_team_or_user_listv1_paged, bind, gets, call_api_v1.
  rewrite E. by destruct w.
Qed.

Lemma serves_set_sent rows limit is_team l (w : world Σ) :
  serves rows limit is_team w → serves rows limit is_team (set_sent l w).
Proof. done. Qed.

Lemma slice_nonempty (rows : list account) (limit k : nat) :
  0 < limit →
  0 < length (take limit (drop (k * limit) rows)) ↔ k * limit < length rows.
Proof. intros Hl. rewrite length_take, length_drop. lia. Qed.

(** The loop, entered with the first [k] pages collected and page [k] at
    hand, fetches the pages after [k] up to the first empty one and returns
    all rows. *)
Lemma teamuser_list_loop_collects rows limit is_team :
  0 < limit →
  ∀ fuel k (w : world Σ),
    serves rows limit is_team w →
    k ≤ ceil_div (length rows) limit →
    ceil_div (length rows) limit - k < fuel →
    teamuser_list_loop fuel limit k is_team
      (take (k * limit) rows) (take limit (drop (k * limit) rows)) w
    = (Ok rows,
       set_sent (sent w ++ map (λ i, list_request (self w) (i * limit) limit is_team)
                             (seq (S k) (ceil_div (length rows) limit - k))) w).
Proof.
  intros Hl. set (c := ceil_div (length rows) limit).
  induction fuel as [|fuel IH]; intros k w Hs Hk Hfuel; [lia|].
  cbn [teamuser_list_loop].
  destruct (decide (0 < length (take limit (drop (k * limit) rows)))) as [Hmore|Hend].
  - apply slice_nonempty in Hmore; [|done].
    assert (k < c) as Hkc.
    { destruct (decide (k < c)) as [|Hge]; [done|].
      assert (c ≤ k) as Hck by lia. apply ceil_div_le in Hck; [lia|done]. }
    unfold bind. rewrite (paged_serves rows) by done.
    rewrite take_take_drop.
    replace (k * limit + limit) with ((k + 1) * limit) by lia.
    rewrite IH; [|done|lia|lia]. f_equal.
    replace (c - k) with (S (c - (k + 1))) by lia.
    cbn [seq map]. replace (k + 1) with (S k) by lia.
    destruct w. unfold set_sent. simpl. by rewrite <- app_assoc.
  - assert (c ≤ k) as Hck.
    { apply ceil_div_le; [done|]. rewrite slice_nonempty in Hend by done. lia. }
    replace (c - k) with 0 by lia. simpl. rewrite app_nil_r.
    unfold ret. f_equal; [|by destruct w]. f_equal.
    apply take_ge. apply ceil_div_le in Hck; [lia|done].
Qed.

(** The collector over a listing of [rows], for any page size. *)
Lemma teamuser_list_collects rows limit is_team fuel (w : world Σ) :
  0 < limit →
  serves rows limit is_team w →
  ceil_div (length rows) limit < fuel →
  teamuser_list fuel limit is_team w
  = (Ok rows,
     set_sent (sent w ++ map (λ i, list_request (self w) (i * limit) limit is_team)
                           (seq 0 (ceil_div (length rows) limit + 1))) w).
Proof.
  intros Hl Hs Hfuel. unfold teamuser_list, bind.
  rewrite (paged_serves rows) by done.
  pose proof (teamuser_list_loop_collects rows limit is_team Hl fuel 0
                (set_sent (sent w ++ [list_request (self w) 0 limit is_team]) w))
    as Hloop.
  etrans; [apply Hloop; [done|lia|lia]|]. f_equal.
  rewrite Nat.sub_0_r, Nat.add_1_r. cbn [seq map].
  destruct w. unfold set_sent. simpl. by rewrite <- app_assoc.
Qed.

End Collector.

(** ** What a method sends *)

Section Traffic.
Context {Σ : Type} `{Platform Σ}.

(** Every request [m] hands to the transport satisfies [P]. *)
Definition sends {A} (P : request → Prop) (m : M Σ A) : Prop :=
  ∀ w, ∃ l, sent (m w).2 = sent w ++ l ∧ Forall P l.

Lemma sends_silent {A} (P : request → Prop) (m : M Σ A) :
  (∀ w, sent (m w).2 = sent w) → sends P m.
Proof. intros Hm w. exists []. by rewrite Hm, app_nil_r. Qed.

Lemma sends_ret {A} P (a : A) : sends P (ret a).
Proof. by apply sends_silent. Qed.
Lemma sends_raise {A} P (e : exn) : sends P (raise (A := A) e).
Proof. by apply sends_silent. Qed.
Lemma sends_diverge {A} P : sends P (diverge (A := A)).
Proof. by apply sends_silent. Qed.
Lemma sends_gets {A} P (f : world Σ → A) : sends P (gets f).
Proof. by apply sends_silent. Qed.
Lemma sends_logging P lvl msg : sends P (logging lvl msg).
Proof. by apply sends_silent. Qed.
Lemma sends_key_cache_setitem P k v : sends P (key_cache_setitem k v).
Proof. by apply sends_silent. Qed.
Lemma sends_set_metric P k v : sends P (set_metric k v).
Proof. by apply sends_silent. Qed.
Lemma sends_deref P r : sends P (deref r).
Proof. by apply sends_silent. Qed.
Lemma sends_setitem_permission P r v : sends P (setitem_permission r v).
Proof. by apply sends_silent. Qed.
Lemma sends_filter_refs P (Q : member → Prop) `{∀ m, Decision (Q m)} l :
  sends P (filter_refs Q l).
Proof. by apply sends_silent. Qed.
Lemma sends_load P team : sends P (load team).
Proof. by apply sends_silent. Qed.
Lemma sends_getitem {A} P (l : list A) i : sends P (getitem l i).
Proof. unfold getitem. destruct (l !! i); by apply sends_silent. Qed.

Lemma sends_bind {A B} P (m : M Σ A) (k : A → M Σ B) :
  sends P m → (∀ a, sends P (k a)) → sends P (bind m k).
Proof.
  intros Hm Hk w. unfold bind. destruct (Hm w) as (l1 & E1 & F1).
  destruct (m w) as [[a| |] w1]; simpl in *; [|by exists l1..].
  destruct (Hk a w1) as (l2 & E2 & F2). exists (l1 ++ l2).
  rewrite E2, E1, app_assoc. split; [done|]. by apply Forall_app.
Qed.

Lemma sends_try {A} P (m : M Σ A) (h : exn → M Σ A) :
  sends P m → (∀ e, sends P (h e)) → sends P (try_except m h).
Proof.
  intros Hm Hh w. unfold try_except. destruct (Hm w) as (l1 & E1 & F1).
  destruct (m w) as [[a|e|] w1]; simpl in *; [by exists l1| |by exists l1].
  destruct (Hh e w1) as (l2 & E2 & F2). exists (l1 ++ l2).
  rewrite E2, E1, app_assoc. split; [done|]. by apply Forall_app.
Qed.

Lemma sends_for_each {A} P (l : list A) (body : A → M Σ unit) :
  (∀ x, sends P (body x)) → sends P (for_each l body).
Proof.
  intros Hbody. induction l as [|x l IH]; simpl; [apply sends_ret|].
  apply sends_bind; auto.
Qed.

Lemma sends_for_acc {A B} P (l : list A) (body : A → B → M Σ B) :
  (∀ x acc, sends P (body x acc)) → ∀ acc, sends P (for_acc l acc body).
Proof.
  intros Hbody. induction l as [|x l IH]; intros acc; simpl; [apply sends_ret|].
  apply sends_bind; auto.
Qed.

Lemma sends_load_all P rows : sends P (load_all rows).
Proof.
  induction rows as [|team rows IH]; simpl; [apply sends_ret|].
  apply sends_bind; [apply sends_load|]. intros t.
  apply sends_bind; [done|]. intros ts. apply sends_ret.
Qed.

Lemma sends_call_api_v1 (P : request → Prop)
    host endpoint method api_key json_data ca_path :
  P (Request host endpoint method api_key json_data ca_path) →
  sends P (call_api_v1 host endpoint method api_key json_data ca_path).
Proof.
  intros HP w. unfold call_api_v1. eexists [_].
  destruct (http _ _) as [[|] ?]; simpl; split; try done; by apply Forall_singleton.
Qed.

Lemma sends_mono {A} (P Q : request → Prop) (m : M Σ A) :
  (∀ rq, P rq → Q rq) → sends P m → sends Q m.
Proof.
  intros HPQ Hm w. destruct (Hm w) as (l & E & F). exists l. split; [done|].
  by eapply Forall_impl.
Qed.

End Traffic.

Create HintDb traffic.
#[local] Hint Resolve sends_ret sends_raise sends_diverge sends_gets sends_logging
  sends_key_cache_setitem sends_set_metric sends_deref sends_setitem_permission
  sends_filter_refs sends_load sends_getitem sends_load_all : traffic.

Ltac traffic_step :=
  intros;
  lazymatch goal with
  | |- sends _ (bind _ _) => apply sends_bind
  | |- sends _ (try_except _ _) => apply sends_try
  | |- sends _ (for_each _ _) => apply sends_for_each
  | |- sends _ (for_acc _ _ _) => apply sends_for_acc
  | |- sends _ (call_api_v1 _ _ _ _ _ _) => apply sends_call_api_v1
  | |- sends _ (match ?x with _ => _ end) => destruct x
  | |- sends _ _ => solve [auto with traffic]
  end.
Ltac traffic := repeat traffic_step.

(** ** More on the paged listing *)

Section CollectorTraffic.
Context {Σ : Type} `{Platform Σ}.

(** A page request of the collector: a GET without body on the listing
    selected by [is_team], for [limit] rows from a multiple of [limit]. *)
Definition page_request (limit : nat) (is_team : bool) (rq : request) : Prop :=
  rq_method rq = GET ∧ rq_json_data rq = None
  ∧ ∃ page, rq_endpoint rq = USER_TEAM_LIST (page * limit) limit is_team.

Lemma sends_json_rows P j : sends (Σ := Σ) P (json_rows j).
Proof. unfold json_rows. traffic. Qed.

Lemma sends_paged limit is_team page :
  sends (page_request limit is_team)
    (get_team_or_user_listv1_paged (page * limit) limit is_team).
Proof.
  unfold get_team_or_user_listv1_paged. traffic;
    first [intros; apply sends_json_rows | repeat split; eauto].
Qed.

Lemma sends_teamuser_list_loop limit is_team fuel :
  ∀ page user_list user_list_page,
    sends (page_request limit is_team)
      (teamuser_list_loop fuel limit page is_team user_list user_list_page).
Proof.
  induction fuel as [|fuel IH]; intros page user_list user_list_page;
    cbn [teamuser_list_loop]; [apply sends_diverge|].
  destruct (decide _); [|apply sends_ret].
  apply sends_bind; [apply sends_paged|]. intros. apply IH.
Qed.

Lemma sends_teamuser_list limit is_team fuel :
  sends (page_request limit is_team) (teamuser_list fuel limit is_team).
Proof.
  unfold teamuser_list. apply sends_bind; [apply (sends_paged limit is_team 0)|].
  intros. apply sends_teamuser_list_loop.
Qed.

(** When the request for the first page fails, the collector fails with the
    same error. *)
Lemma teamuser_list_first_page_fails limit is_team fuel e s (w : world Σ) :
  http (list_request (self w) 0 limit is_team) (remote w) = (inl e, s) →
  teamuser_list fuel limit is_team w
  = (Raise e,
     set_remote s (set_sent (sent w ++ [list_request (self w) 0 limit is_team]) w)).
Proof.
  intros E. unfold list_request in E.
  unfold teamuser_list, get_team_or_user_listv1_paged, bind, gets, call_api_v1.
  simpl. by rewrite E.
Qed.

End CollectorTraffic.

(** X1 ([get_teamuser_listv1] collects a listing page by page): when the
    workspace holds [rows] in the listing and answers every page request
    with the matching slice, the collector returns exactly [rows], in order,
    after ⌈N/10000⌉ + 1 requests at the offsets 0, 10000, 20000, ...; the
    last of them is the one answered by the empty page.  Nothing but the
    record of sent requests changes. *)
Theorem X1_listing_collected_page_by_page {Σ : Type} `{Platform Σ}
    (rows : list account) (is_team : bool) (fuel : nat) (w : world Σ) :
  serves rows limit_10000 is_team w →
  ceil_div (length rows) limit_10000 < fuel →
  get_teamuser_listv1 fuel is_team w
  = (Ok rows,
     set_sent
       (sent w ++ map (λ i, list_request (self w) (i * limit_10000) limit_10000 is_team)
                    (seq 0 (ceil_div (length rows) limit_10000 + 1))) w).
Proof.
  intros Hs Hfuel. apply teamuser_list_collects; [|done..].
  unfold limit_10000. lia.
Qed.

Lemma X1_listing_collected_page_by_page_witness :
  let rows := [Sample.alice; Sample.bob; Sample.carol] in
  let w := Sample.start [] (Sample.workspace rows ∅) in
  get_teamuser_listv1 2 false w
  = (Ok rows,
     set_sent [list_request (self w) 0 limit_10000 false;
               list_request (self w) limit_10000 limit_10000 false] w).
Proof.
  intros rows w.
  assert (ceil_div (length rows) limit_10000 = 1) as Hc by (vm_compute; reflexivity).
  pose proof (X1_listing_collected_page_by_page rows false 2 w) as Hx.
  rewrite Hc in Hx. cbn [seq map sent w Sample.start app Nat.add] in Hx.
  rewrite Nat.mul_0_l, Nat.mul_1_l in Hx. apply Hx.
  - intros offset. exists 200%Z. reflexivity.
  - lia.
Defined.

(** ** A scripted transport

    A transport that answers the requests it receives with the outcomes of a
    prepared list, in order, whatever the request; once the list is used up
    it fails to connect.  It stands for a workspace that misbehaves. *)
Module Scripted.

Definition step (rq : request) (s : list (exn + response))
    : (exn + response) * list (exn + response) :=
  match s with
  | [] => (inl ConnectionError, [])
  | answer :: s' => (answer, s')
  end.

#[global] Instance platform : Platform (list (exn + response)) := {
  http := step;
  get_teams_metadata_file_path := λ dir, dir +:+ "/teams.json";
  get_users_metadata_file_path := λ dir, dir +:+ "/users.json";
  extract_fields_MEMBER_MAPV1 := λ m, Member (m_username m) (permission m) []
}.

Definition start (snapshot : list account) (script : list (exn + response))
    : world (list (exn + response)) :=
  World Sample.importer [] {["/out/teams.json" := snapshot]} 0 [] [] script.

End Scripted.

(** X2 (the collector only reads): whatever the workspace answers and
    however the call ends, every request [get_teamuser_listv1] sends is a
    GET without body on the listing it was asked for, for 10000 rows from a
    multiple of 10000. *)
Theorem X2_collector_sends_page_requests_only {Σ : Type} `{Platform Σ}
    (fuel : nat) (is_team : bool) (w : world Σ) :
  ∃ l, sent (get_teamuser_listv1 fuel is_team w).2 = sent w ++ l
       ∧ Forall (page_request limit_10000 is_team) l.
Proof. apply sends_teamuser_list. Qed.

(** *** The collector against any sequence of answers *)

Section CollectorTrace.
Context {Σ : Type} `{Platform Σ}.

(** From the state [s] on, the page requests number [k], [k+1], ... are
    answered with the non-empty pages [pages], one each, and the request
    after them with [final]; [s_end] is the state this leaves. *)
Fixpoint pages_then (o : TeamBase) (limit : nat) (is_team : bool) (k : nat)
    (pages : list (list account)) (final : exn + response) (s s_end : Σ) : Prop :=
  match pages with
  | [] => http (list_request o (k * limit) limit is_team) s = (final, s_end)
  | p :: ps =>
      p ≠ [] ∧ ∃ st s1,
        http (list_request o (k * limit) limit is_team) s
        = (inr (Response st (JAccounts p)), s1)
        ∧ pages_then o limit is_team (S k) ps final s1 s_end
  end.

(** An answer that ends the collection: an error, an empty page, or a body
    that is not a list of rows. *)
Definition is_final (final : exn + response) : Prop :=
  match final with
  | inl _ => True
  | inr r => ∀ x l, body r ≠ JAccounts (x :: l)
  end.

(** How the collection ends on the final answer, [all] being the rows
    received before it. *)
Definition ending (final : exn + response) (all : list account)
    : result (list account) :=
  match final with
  | inl e => Raise e
  | inr r => match body r with
             | JAccounts _ => Ok all
             | _ => Raise TypeError
             end
  end.

Lemma paged_eval offset limit is_team answer s1 (w : world Σ) :
  http (list_request (self w) offset limit is_team) (remote w) = (answer, s1) →
  get_team_or_user_listv1_paged offset limit is_team w
  = (match answer with
     | inl e => Raise e
     | inr r => match body r with
                | JAccounts rows => Ok rows
                | _ => Raise TypeError
                end
     end,
     set_remote s1
       (set_sent (sent w ++ [list_request (self w) offset limit is_team]) w)).
Proof.
  intros E. unfold list_request in E.
  unfold get_team_or_user_listv1_paged, bind, gets, call_api_v1. rewrite E.
  destruct answer as [e|[st j]]; [done|]. by destruct j.
Qed.

Lemma teamuser_list_loop_trace limit is_team final s_end :
  is_final final →
  ∀ rest fuel k acc cur (w : world Σ),
    cur ≠ [] →
    length rest + 1 < fuel →
    pages_then (self w) limit is_team (S k) rest final (remote w) s_end →
    teamuser_list_loop fuel limit k is_team acc cur w
    = (ending final (acc ++ cur ++ concat rest),
       set_remote s_end
         (set_sent (sent w ++ map (λ i, list_request (self w) (i * limit) limit is_team)
                               (seq (S k) (length rest + 1))) w)).
Proof.
  intros Hfinal. induction rest as [|p ps IH]; intros fuel k acc cur w Hcur Hfuel Hrun.
  - destruct fuel as [|[|fuel]]; [simpl in Hfuel; lia..|].
    cbn [teamuser_list_loop].
    rewrite decide_True by (destruct cur; [done | simpl; lia]).
    unfold bind. replace (k + 1) with (S k) by lia.
    rewrite (paged_eval _ _ _ _ _ _ Hrun).
    destruct final as [e|[st j]]; [done|].
    destruct j; try done. simpl in Hfinal.
    destruct rows as [|x l]; [|by destruct (Hfinal x l)].
    simpl. by rewrite !app_nil_r.
  - destruct fuel as [|fuel]; [lia|]. cbn [teamuser_list_loop].
    rewrite decide_True by (destruct cur; [done | simpl; lia]).
    destruct Hrun as (Hp & st & s1 & E & Hrun).
    unfold bind. replace (k + 1) with (S k) by lia.
    rewrite (paged_eval _ _ _ _ _ _ E). cbn [body].
    rewrite (IH fuel (S k) (acc ++ cur) p); [|done|simpl in *; lia|done].
    f_equal.
    + f_equal. simpl. by rewrite <- !app_assoc.
    + destruct w. unfold set_remote, set_sent. simpl. f_equal.
      by rewrite <- app_assoc.
Qed.

(** The collector returns the concatenation of the non-empty pages it
    receives, or fails as the final answer does. *)
Lemma teamuser_list_trace limit is_team pages final s_end fuel (w : world Σ) :
  is_final final →
  length pages < fuel →
  pages_then (self w) limit is_team 0 pages final (remote w) s_end →
  teamuser_list fuel limit is_team w
  = (ending final (concat pages),
     set_remote s_end
       (set_sent (sent w ++ map (λ i, list_request (self w) (i * limit) limit is_team)
                             (seq 0 (length pages + 1))) w)).
Proof.
  intros Hfinal Hfuel Hrun. unfold teamuser_list, bind. cbv zeta.
  destruct pages as [|p ps].
  - cbn [pages_then] in Hrun. rewrite (paged_eval _ _ _ _ _ _ Hrun).
    destruct final as [e|[st j]]; [done|]. destruct j; try done.
    simpl in Hfinal. destruct rows as [|x l]; [|by destruct (Hfinal x l)].
    destruct fuel as [|fuel]; [lia|]. done.
  - destruct Hrun as (Hp & st & s1 & E & Hrun).
    rewrite (paged_eval _ _ _ _ _ _ E). cbn [body].
    rewrite (teamuser_list_loop_trace limit is_team final s_end Hfinal ps fuel 0 [] p);
      [|done|simpl in *; lia|done].
    f_equal. destruct w. unfold set_remote, set_sent. simpl. f_equal.
    by rewrite <- app_assoc.
Qed.

End CollectorTrace.

(** X3 (a failure at any page fails the whole collection): if the listing
    answers the first requests with non-empty pages and then one request
    fails with [e], [get_teamuser_listv1] raises [e]; the rows of the pages
    received before are not returned. *)
Theorem X3_collector_fails_with_the_failing_page {Σ : Type} `{Platform Σ}
    (pages : list (list account)) (e : exn) (s_end : Σ) (fuel : nat)
    (is_team : bool) (w : world Σ) :
  length pages < fuel →
  pages_then (self w) limit_10000 is_team 0 pages (inl e) (remote w) s_end →
  get_teamuser_listv1 fuel is_team w
  = (Raise e,
     set_remote s_end
       (set_sent
          (sent w ++ map (λ i, list_request (self w) (i * limit_10000) limit_10000 is_team)
                       (seq 0 (length pages + 1))) w)).
Proof.
  intros Hfuel Hrun.
  by apply (teamuser_list_trace limit_10000 is_team pages (inl e) s_end).
Qed.

Lemma X3_collector_fails_with_the_failing_page_witness :
  let page1 := inr (Response 200 (JAccounts [Sample.alice])) in
  let page2 := inr (Response 200 (JAccounts [Sample.bob; Sample.carol])) in
  let w := Scripted.start [] [page1; page2; inl ConnectionError; page1] in
  get_teamuser_listv1 3 false w
  = (Raise ConnectionError,
     set_remote [page1]
       (set_sent
          (sent w ++ map (λ i, list_request (self w) (i * limit_10000) limit_10000 false)
                       (seq 0 3)) w)).
Proof.
  intros page1 page2 w.
  apply (X3_collector_fails_with_the_failing_page
           [[Sample.alice]; [Sample.bob; Sample.carol]] ConnectionError [page1] 3 false w).
  - simpl. lia.
  - simpl. split; [done|]. exists 200%Z, [page2; inl ConnectionError; page1].
    split; [reflexivity|]. split; [done|].
    exists 200%Z, [inl ConnectionError; page1]. split; reflexivity.
Defined.

(** X4 (the collector stops at the first empty page, and only there): if
    the listing answers with non-empty pages of any length and then with an
    empty page, [get_teamuser_listv1] returns the rows of all the pages in
    the order received, without removing duplicates, after one request more
    than there were non-empty pages. *)
Theorem X4_collector_concatenates_until_empty_page {Σ : Type} `{Platform Σ}
    (pages : list (list account)) (st : Z) (s_end : Σ) (fuel : nat)
    (is_team : bool) (w : world Σ) :
  length pages < fuel →
  pages_then (self w) limit_10000 is_team 0 pages
    (inr (Response st (JAccounts []))) (remote w) s_end →
  get_teamuser_listv1 fuel is_team w
  = (Ok (concat pages),
     set_remote s_end
       (set_sent
          (sent w ++ map (λ i, list_request (self w) (i * limit_10000) limit_10000 is_team)
                       (seq 0 (length pages + 1))) w)).
Proof.
  intros Hfuel Hrun.
  by apply (teamuser_list_trace limit_10000 is_team pages
              (inr (Response st (JAccounts []))) s_end).
Qed.

Lemma X4_collector_concatenates_until_empty_page_witness :
  let page1 := inr (Response 200 (JAccounts [Sample.alice])) in
  let page2 := inr (Response 200 (JAccounts [Sample.bob; Sample.alice])) in
  let empty := inr (Response 200 (JAccounts [])) in
  let w := Scripted.start [] [page1; page2; empty; page1] in
  get_teamuser_listv1 3 false w
  = (Ok [Sample.alice; Sample.bob; Sample.alice],
     set_remote [page1]
       (set_sent
          (sent w ++ map (λ i, list_request (self w) (i * limit_10000) limit_10000 false)
                       (seq 0 3)) w)).
Proof.
  intros page1 page2 empty w.
  apply (X4_collector_concatenates_until_empty_page
           [[Sample.alice]; [Sample.bob; Sample.alice]] 200 [page1] 3 false w).
  - simpl. lia.
  - simpl. split; [done|]. exists 200%Z, [page2; empty; page1].
    split; [reflexivity|]. split; [done|].
    exists 200%Z, [empty; page1]. split; reflexivity.
Defined.

(** ** More on the consistency check *)

(** X5 (the verdict of the check): when every team has an entry with
    permission ['owner'], [_check_teams_users_integration] returns, and it
    returns [True] exactly when the username of every member of every team
    is the username of a user in [user_list]; whether an owner is an admin
    has no influence.  Only the log changes. *)
Theorem X5_check_verdict {Σ : Type}
    (user_list team_list : list account) (w : world Σ) :
  Forall (λ team, owners team ≠ []) team_list →
  ∃ w', _check_teams_users_integration user_list team_list w
        = (Ok (bool_decide (Forall (members_known user_list) team_list)), w')
        ∧ only_logged w w'.
Proof. intros Hown. by apply check_completes. Qed.

Lemma X5_check_verdict_witness :
  let w := Sample.start [] (Sample.workspace [] ∅) in
  (∃ w', _check_teams_users_integration [Sample.alice; Sample.bob] [Sample.t1] w
         = (Ok (bool_decide (Forall (members_known [Sample.alice; Sample.bob])
                               [Sample.t1])), w')
         ∧ only_logged w w')
  ∧ (∃ w', _check_teams_users_integration [Sample.alice; Sample.bob]
             [Sample.t1; Sample.t2] w = (Ok false, w')).
Proof.
  intros w. split.
  - apply (X5_check_verdict [Sample.alice; Sample.bob] [Sample.t1] w).
    repeat constructor; by vm_compute.
  - eexists. vm_compute. reflexivity.
Defined.

(** X6 (a team without owner breaks the check): if some team of
    [team_list] has no entry with permission ['owner'], the check raises
    [IndexError], whatever the users and the other teams are. *)
Theorem X6_check_raises_on_any_ownerless_team {Σ : Type}
    (user_list team_list : list account) (w : world Σ) :
  Exists (λ team, owners team = []) team_list →
  (_check_teams_users_integration user_list team_list w).1 = Raise IndexError.
Proof. intros Hex. by apply check_raises. Qed.

Lemma X6_check_raises_on_any_ownerless_team_witness :
  (_check_teams_users_integration [Sample.alice; Sample.bob]
     [Sample.t1; Sample.t0; Sample.t2]
     (Sample.start [] (Sample.workspace [] ∅))).1 = Raise IndexError.
Proof.
  apply (X6_check_raises_on_any_ownerless_team [Sample.alice; Sample.bob]
           [Sample.t1; Sample.t0; Sample.t2]).
  apply Exists_cons_tl, Exists_cons_hd. reflexivity.
Defined.

(** ** More on credentials *)

Section CredentialFacts.
Context {Σ : Type} `{Platform Σ}.

(** The two requests [_retrive_or_create_api_key_for_user] can send. *)
Definition key_request (method : http_method) (username : string) (w : world Σ)
    : request :=
  Request (host (self w)) (API_KEY username) method (Some (api_key (self w)))
          (Some (JExpiry (now w + one_week))) (ca_path (self w)).

Lemma retrieve_total (username : string) (w : world Σ) :
  ∃ k l, (_retrive_or_create_api_key_for_user username w).1 = Ok k
    ∧ sent (_retrive_or_create_api_key_for_user username w).2 = sent w ++ l
    ∧ (l = [] ∨ l = [key_request GET username w]
       ∨ l = [key_request GET username w; key_request POST username w]).
Proof.
  unfold key_request.
  unfold _retrive_or_create_api_key_for_user, bind, gets, ret, try_except,
    key_cache_setitem, modify.
  unfold _get_apiv2_key, _new_apiv2_key, bind, gets, ret, call_api_v1, json_apiKey, raise.
  simpl. destruct (key_cache (self w) !! username) as [c|].
  { exists c, []. rewrite app_nil_r. auto. }
  destruct (http _ (remote w)) as [[e|[st [| | |k| | |]]] s1]; simpl;
    try (eexists _, [_]; split; [reflexivity|]; split; [reflexivity|]; auto; fail);
    destruct (http _ s1) as [[e'|[st' [| | |k'| | |]]] s2]; simpl;
    eexists _, [_; _]; (split; [reflexivity|]);
    (split; [by rewrite <- app_assoc|]); auto.
Qed.

(** After a retrieval that ended without a key, the cache answers for the
    user called "username". *)
Lemma retrieve_poisons (username : string) (w : world Σ) :
  key_cache (self w) !! username = None →
  (_retrive_or_create_api_key_for_user username w).1 = Ok None →
  key_cache (self (_retrive_or_create_api_key_for_user username w).2) !! "username"
  = Some None.
Proof.
  intros Hmiss.
  unfold _retrive_or_create_api_key_for_user, bind, gets, ret, try_except,
    key_cache_setitem, modify.
  unfold _get_apiv2_key, _new_apiv2_key, bind, gets, ret, call_api_v1, json_apiKey, raise.
  simpl. rewrite Hmiss.
  destruct (http _ (remote w)) as [[e|[st [| | |k| | |]]] s1]; simpl; try done;
    destruct (http _ s1) as [[e'|[st' [| | |k'| | |]]] s2]; simpl; try done;
    intros _; apply lookup_insert_eq.
Qed.

Lemma retrieve_hit (username : string) (c : option string) (w : world Σ) :
  key_cache (self w) !! username = Some c →
  _retrive_or_create_api_key_for_user username w = (Ok c, w).
Proof.
  intros Hhit. unfold _retrive_or_create_api_key_for_user, bind, gets. simpl.
  by rewrite Hhit.
Qed.

End CredentialFacts.

(** X7 (delegation never raises): whatever the transport does,
    [_retrive_or_create_api_key_for_user] returns — a key or [None] — and
    on the way sends nothing, or the GET for the user's key, or that GET
    followed by the POST that mints one; both carry the importer's own
    key. *)
Theorem X7_retrieve_never_raises {Σ : Type} `{Platform Σ}
    (username : string) (w : world Σ) :
  ∃ k l, (_retrive_or_create_api_key_for_user username w).1 = Ok k
    ∧ sent (_retrive_or_create_api_key_for_user username w).2 = sent w ++ l
    ∧ (l = [] ∨ l = [key_request GET username w]
       ∨ l = [key_request GET username w; key_request POST username w]).
Proof. apply retrieve_total. Qed.

(** X8 (what the credential cache can hold): a call of
    [_retrive_or_create_api_key_for_user] leaves [key_cache] unchanged or
    adds the value [None] under the literal key "username"; no key that was
    fetched or minted is ever stored. *)
Theorem X8_cache_only_gains_placeholder {Σ : Type} `{Platform Σ}
    (username : string) (w : world Σ) :
  let w' := (_retrive_or_create_api_key_for_user username w).2 in
  key_cache (self w') = key_cache (self w)
  ∨ key_cache (self w') = <["username" := None]> (key_cache (self w)).
Proof. apply (retrieve_cache username w). Qed.

(** X9 (one failed delegation disables the user called "username"): once
    a retrieval that missed the cache has ended without a key, a retrieval
    for the user "username" returns [None] from the cache and sends no
    request, although no attempt was made for that user. *)
Theorem X9_failed_retrieval_poisons_username {Σ : Type} `{Platform Σ}
    (username : string) (w : world Σ) :
  key_cache (self w) !! username = None →
  (_retrive_or_create_api_key_for_user username w).1 = Ok None →
  let w1 := (_retrive_or_create_api_key_for_user username w).2 in
  _retrive_or_create_api_key_for_user "username" w1 = (Ok None, w1).
Proof.
  intros Hmiss Hnone w1. apply retrieve_hit. by apply retrieve_poisons.
Qed.

Lemma X9_failed_retrieval_poisons_username_witness :
  let w := Sample.start []
             (Workspace.State [Account "username" false [] []]
                [("admin", "key-admin"); ("username", "key-username")] ∅) in
  (_retrive_or_create_api_key_for_user "username" w).1 = Ok (Some "key-username")
  ∧ let w1 := (_retrive_or_create_api_key_for_user "zed" w).2 in
    _retrive_or_create_api_key_for_user "username" w1 = (Ok None, w1).
Proof.
  intros w. split; [vm_compute; reflexivity|].
  apply (X9_failed_retrieval_poisons_username "zed" w).
  - vm_compute. reflexivity.
  - vm_compute. reflexivity.
Defined.

(** ** More on the calls of [TeamBase] *)

Section CallFacts.
Context {Σ : Type} `{Platform Σ}.

(** The request [_del_team] sends. *)
Definition delete_request (team : team_obj) (w : world Σ) : request :=
  Request (host (self w)) (DEL_TEAM (username team)) DELETE
          (Some (api_key (self w))) None (ca_path (self w)).

Lemma del_team_eval (team : team_obj) (w : world Σ) :
  _del_team team w
  = (Ok tt,
     set_remote (http (delete_request team w) (remote w)).2
       (set_sent (sent w ++ [delete_request team w]) w)).
Proof.
  unfold delete_request, _del_team, _del_teamv1, self_call_api_v1, try_except,
    bind, gets, call_api_v1, ret. simpl.
  by destruct (http _ (remote w)) as [[e|r] s].
Qed.


(** A delegated call whose delegation ended without a key goes out without
    any key. *)
Lemma self_call_without_key endpoint method json_data (username : string)
    (w : world Σ) :
  username ≠ self_username (self w) →
  (_retrive_or_create_api_key_for_user username w).1 = Ok None →
  self_call_api_v1 endpoint method json_data (Some username) w
  = call_api_v1 (host (self w)) endpoint method None json_data (ca_path (self w))
      (_retrive_or_create_api_key_for_user username w).2.
Proof.
  intros Hne Hnone. unfold self_call_api_v1, bind, gets. simpl.
  rewrite bool_decide_eq_true_2 by congruence. simpl.
  destruct (_retrive_or_create_api_key_for_user username w) as [r w1].
  simpl in Hnone. by subst r.
Qed.

End CallFacts.

(** X10 ([_del_team] swallows every failure): whatever the transport
    answers or raises — a 404, any other HTTP error, a connection error —
    [_del_team] returns normally after sending one DELETE for the team, with
    the importer's own key; it logs nothing. *)
Theorem X10_del_team_swallows_every_failure {Σ : Type} `{Platform Σ}
    (team : team_obj) (w : world Σ) :
  _del_team team w
  = (Ok tt,
     set_remote (http (delete_request team w) (remote w)).2
       (set_sent (sent w ++ [delete_request team w]) w)).
Proof. apply del_team_eval. Qed.

(** X11 (a failed delegation sends the call without credentials): when a
    call is made on behalf of a user other than the importer's own and the
    delegation ends without a key, the request is still sent, with no API
    key at all, and its outcome is the outcome of the call. *)
Theorem X11_failed_delegation_sends_call_without_key {Σ : Type} `{Platform Σ}
    (endpoint : endpoint) (method : http_method) (json_data : option json)
    (username : string) (w : world Σ) :
  username ≠ self_username (self w) →
  (_retrive_or_create_api_key_for_user username w).1 = Ok None →
  self_call_api_v1 endpoint method json_data (Some username) w
  = call_api_v1 (host (self w)) endpoint method None json_data (ca_path (self w))
      (_retrive_or_create_api_key_for_user username w).2.
Proof. apply self_call_without_key. Qed.

Lemma X11_failed_delegation_sends_call_without_key_witness :
  let w := Sample.start [] (Sample.workspace [Sample.alice] ∅) in
  (self_call_api_v1 ADD_TEAM POST (Some (JTeam "organization" "t9")) (Some "zed") w).1
  = Raise Workspace.unauthorized
  ∧ self_call_api_v1 ADD_TEAM POST (Some (JTeam "organization" "t9")) (Some "zed") w
    = call_api_v1 (host (self w)) ADD_TEAM POST None
        (Some (JTeam "organization" "t9")) (ca_path (self w))
        (_retrive_or_create_api_key_for_user "zed" w).2.
Proof.
  intros w. split; [vm_compute; reflexivity|].
  apply (X11_failed_delegation_sends_call_without_key ADD_TEAM POST
           (Some (JTeam "organization" "t9")) "zed" w).
  - vm_compute. discriminate.
  - vm_compute. reflexivity.
Defined.

(** ** More on replaying a team *)

Section ReplayTraffic.
Context {Σ : Type} `{Platform Σ}.

(** [P] holds of every request for an API key. *)
Definition allows_keys (P : request → Prop) : Prop :=
  ∀ h u m k j c, P (Request h (API_KEY u) m k j c).

Lemma sends_json_apiKey P j : sends (Σ := Σ) P (json_apiKey j).
Proof. unfold json_apiKey. traffic. Qed.
Lemma sends_json_message P j : sends (Σ := Σ) P (json_message j).
Proof. unfold json_message. traffic. Qed.
Lemma sends_json_username P j : sends (Σ := Σ) P (json_username j).
Proof. unfold json_username. traffic. Qed.

Lemma sends_retrieve P username :
  allows_keys P → sends P (_retrive_or_create_api_key_for_user username).
Proof.
  intros HP. unfold _retrive_or_create_api_key_for_user, _get_apiv2_key,
    _new_apiv2_key.
  traffic; first [apply HP | intros; apply sends_json_apiKey].
Qed.

Lemma sends_self_call P endpoint method json_data username :
  allows_keys P →
  (∀ h k c, P (Request h endpoint method k json_data c)) →
  sends P (self_call_api_v1 endpoint method json_data username).
Proof.
  intros HP Hrq. unfold self_call_api_v1.
  traffic; first [apply Hrq | by apply sends_retrieve].
Qed.

Lemma sends_del_team P team :
  allows_keys P →
  (∀ h k c, P (Request h (DEL_TEAM (username team)) DELETE k None c)) →
  sends P (_del_team team).
Proof.
  intros HP Hrq. unfold _del_team, _del_teamv1.
  traffic. by apply sends_self_call.
Qed.

Lemma sends_add_team P team username :
  allows_keys P →
  (∀ h k c, P (Request h ADD_TEAM POST k (Some team) c)) →
  sends P (_add_team team username).
Proof.
  intros HP Hrq. unfold _add_team, _add_teamv1.
  traffic; first [apply sends_json_username | by apply sends_self_call].
Qed.

Lemma sends_add_team_member P team_name member username :
  allows_keys P →
  (∀ h k c j, P (Request h (TEAM_MEMBER_ADD team_name) POST k j c)) →
  sends P (add_team_member team_name member username).
Proof.
  intros HP Hrq. unfold add_team_member, _add_team_memberv1.
  traffic; first [apply sends_json_message | by apply sends_self_call].
Qed.

(** The requests a replay of the team [name] may send: any request for an
    API key, the DELETE of [name], the POST that creates [name] as an
    organization, and POSTs that add a member to [name]. *)
Definition replay_request (name : string) (rq : request) : Prop :=
  match rq_endpoint rq with
  | API_KEY _ => True
  | USER_TEAM_LIST _ _ _ => False
  | ADD_TEAM =>
      rq_method rq = POST ∧ rq_json_data rq = Some (JTeam "organization" name)
  | DEL_TEAM team => team = name ∧ rq_method rq = DELETE
  | TEAM_MEMBER_ADD team => team = name ∧ rq_method rq = POST
  end.

Lemma sends_create_or_update (team : team_obj) :
  sends (replay_request (username team)) (_create_or_update_team team).
Proof.
  assert (allows_keys (replay_request (username team))) as HP by done.
  unfold _create_or_update_team.
  traffic; intros;
    first [ by apply sends_del_team
          | by apply sends_add_team
          | by apply sends_add_team_member ].
Qed.






End ReplayTraffic.

(** X12 (what a replay does to its input, however it ends): after
    [_create_or_update_team], returned or raised, the heap is the one
    before with the permission set to ['admin'] in the first [k] of the
    owner entries that follow the first owner, for some [k]; [k] is all of
    them when the method returns.  No other dictionary and no other key is
    written, so an aborted replay can leave the team partly rewritten. *)
Theorem X12_replay_rewrites_a_prefix_of_extra_owners {Σ : Type} `{Platform Σ}
    (team : team_obj) (w : world Σ) :
  ∃ k,
    heap (_create_or_update_team team w).2
    = foldl set_admin (heap w) (take k (drop 1 (owner_refs (heap w) team)))
    ∧ ((_create_or_update_team team w).1 = Ok tt
       → k = length (drop 1 (owner_refs (heap w) team))).
Proof. apply (create_or_update_heap team w). Qed.

(** X13 (a replay stays with its team): every request
    [_create_or_update_team] sends is a request for an API key, the DELETE
    of this team, the POST creating this team as an organization, or a POST
    adding a member to this team.  It never lists users or teams and never
    addresses another team. *)
Theorem X13_replay_addresses_its_team_only {Σ : Type} `{Platform Σ}
    (team : team_obj) (w : world Σ) :
  ∃ l, sent (_create_or_update_team team w).2 = sent w ++ l
       ∧ Forall (replay_request (username team)) l.
Proof. apply sends_create_or_update. Qed.



(** ** More on the import *)

Section ImportFacts.
Context {Σ : Type} `{Platform Σ}.

Lemma sends_check P (user_list team_list : list account) :
  sends (Σ := Σ) P (_check_teams_users_integration user_list team_list).
Proof. unfold _check_teams_users_integration. traffic. Qed.

Lemma sends_read_json_file P path : sends (Σ := Σ) P (read_json_file path).
Proof. unfold read_json_file. traffic. Qed.

Lemma sends_pre_import_verify fuel :
  sends (page_request limit_10000 false) (_pre_import_verify fuel).
Proof.
  unfold _pre_import_verify.
  traffic; intros;
    first [ apply sends_read_json_file | apply sends_teamuser_list | apply sends_check ].
Qed.

Lemma pre_import_verify_true fuel (w w' : world Σ) :
  _pre_import_verify fuel w = (Ok true, w') →
  ∃ team_list user_list w1,
    files w !! get_teams_metadata_file_path (top_level_dir (self w)) = Some team_list
    ∧ get_teamuser_listv1 fuel false w = (Ok user_list, w1)
    ∧ Forall (λ team, owners team ≠ []) team_list
    ∧ Forall (members_known user_list) team_list.
Proof.
  unfold _pre_import_verify, read_json_file. unfold bind at 1 2 3, gets. simpl.
  destruct (files w !! _) as [team_list|]; [|done]. unfold ret at 1.
  unfold bind at 1.
  destruct (get_teamuser_listv1 fuel false w) as [[user_list| |] w1]; [|done..].
  unfold bind. intros Hrun. exists team_list, user_list, w1.
  split; [done|]. split; [done|].
  destruct (decide (Forall (λ team, owners team ≠ []) team_list)) as [Hown|Hnot].
  - split; [done|].
    destruct (check_completes user_list team_list Hown w1) as (w2 & E & _).
    rewrite E in Hrun. unfold ret in Hrun.
    injection Hrun as Hb _. by apply bool_decide_eq_true_1 in Hb.
  - exfalso. apply not_Forall_Exists in Hnot; [|apply _].
    assert (Exists (λ team, owners team = []) team_list) as Hex.
    { eapply Exists_impl; [exact Hnot|]. intros t Ht. simpl in Ht.
      by destruct (decide (owners t = [])). }
    pose proof (check_raises user_list team_list Hex w1) as Hr.
    destruct (_check_teams_users_integration user_list team_list w1) as [[| |] ?];
      by simplify_eq/=.
Qed.



End ImportFacts.

(** X15 (what a passed pre-import check guarantees): when
    [_pre_import_verify] returns [True], the teams file exists, the users
    were listed from the workspace the importer is configured for, every
    team of the file has an owner entry, and the username of every member
    of every team of the file is the username of a listed user. *)
Theorem X15_pre_import_verify_passed {Σ : Type} `{Platform Σ}
    (fuel : nat) (w w' : world Σ) :
  _pre_import_verify fuel w = (Ok true, w') →
  ∃ team_list user_list w1,
    files w !! get_teams_metadata_file_path (top_level_dir (self w)) = Some team_list
    ∧ get_teamuser_listv1 fuel false w = (Ok user_list, w1)
    ∧ Forall (λ team, owners team ≠ []) team_list
    ∧ Forall (members_known user_list) team_list.
Proof. apply pre_import_verify_true. Qed.

Lemma X15_pre_import_verify_passed_witness :
  let w := Sample.start [Sample.t1; Sample.t2]
             (Sample.workspace [Sample.alice; Sample.bob; Sample.carol] ∅) in
  ∃ team_list user_list w1,
    files w !! get_teams_metadata_file_path (Σ := Workspace.state)
                 (top_level_dir (self w)) = Some team_list
    ∧ get_teamuser_listv1 2 false w = (Ok user_list, w1)
    ∧ Forall (λ team, owners team ≠ []) team_list
    ∧ Forall (members_known user_list) team_list.
Proof.
  intros w.
  apply (X15_pre_import_verify_passed 2 w (_pre_import_verify 2 w).2).
  vm_compute. reflexivity.
Defined.

(** X16 (the pre-import check only reads): however it ends, every request
    [_pre_import_verify] sends is a GET without body for a page of the user
    listing. *)
Theorem X16_pre_import_verify_sends_user_pages_only {Σ : Type} `{Platform Σ}
    (fuel : nat) (w : world Σ) :
  ∃ l, sent (_pre_import_verify fuel w).2 = sent w ++ l
       ∧ Forall (page_request limit_10000 false) l.
Proof. apply sends_pre_import_verify. Qed.



#[global] Instance name_le_total : Total name_le.
Proof. intros a b. apply String.leb_total. Qed.

Section ImportMetrics.
Context {Σ : Type} `{Platform Σ}.



End ImportMetrics.



(** ** Purging the teams of the snapshot *)

Section Purge.
Context {Σ : Type} `{Platform Σ}.

(** [TeamImporter._drop_teams].  As in [_import_teams], the teams read from
    the file are put on the heap before they are handed on. *)
Definition _drop_teams : M Σ unit :=
  self <- gets self ;;
  let filepath := get_teams_metadata_file_path (top_level_dir self) in
  rows <- read_json_file filepath ;;
  team_metadata_list <- load_all rows ;;
  logging INFO (importing_from filepath) ;;
  for_each team_metadata_list (λ team,
    let team_name := username team in
    logging INFO (delete_team team_name) ;;
    _del_team team).

(** The DELETE for the team called [name], with the importer's own key. *)
Definition delete_by_name (o : TeamBase) (name : string) : request :=
  Request (host o) (DEL_TEAM name) DELETE (Some (api_key o)) None (ca_path o).

Lemma load_all_names (rows : list account) (w : world Σ) :
  ∃ objs w1, load_all rows w = (Ok objs, w1)
    ∧ map username objs = map username rows
    ∧ self w1 = self w ∧ sent w1 = sent w ∧ logs w1 = logs w.
Proof.
  revert w. induction rows as [|team rows IH]; intros w; simpl.
  - by exists [], w.
  - unfold bind at 1. unfold load at 1.
    destruct (IH (set_heap (heap w ++ teamMembers team) w))
      as (objs & w1 & E & Hn & Hs & Ht & Hl).
    unfold bind. rewrite E. eexists _, w1. split; [done|]. simpl.
    by rewrite Hn.
Qed.

(** The body of the loop of [_drop_teams]. *)
Definition drop_step (team : team_obj) : M Σ unit :=
  let team_name := username team in
  logging INFO (delete_team team_name) ;; _del_team team.

Lemma drop_step_eval (team : team_obj) (w : world Σ) :
  ∃ w', drop_step team w = (Ok tt, w')
    ∧ self w' = self w
    ∧ sent w' = sent w ++ [delete_by_name (self w) (username team)]
    ∧ logs w' = logs w ++ [(INFO, delete_team (username team))].
Proof.
  unfold drop_step, bind, logging, modify. rewrite del_team_eval.
  eexists. split; [reflexivity|]. by destruct w.
Qed.

Lemma drop_loop (objs : list team_obj) (w : world Σ) :
  ∃ w', for_each objs drop_step w = (Ok tt, w')
    ∧ self w' = self w
    ∧ sent w' = sent w ++ map (delete_by_name (self w)) (map username objs)
    ∧ logs w' = logs w ++ map (λ n, (INFO, delete_team n)) (map username objs).
Proof.
  revert w. induction objs as [|team objs IH]; intros w; simpl.
  - exists w. by rewrite !app_nil_r.
  - destruct (drop_step_eval team w) as (w1 & E1 & Hs1 & Ht1 & Hl1).
    destruct (IH w1) as (w' & E & Hs & Ht & Hl).
    exists w'. unfold bind. rewrite E1, E. split; [done|].
    rewrite Hs, Ht, Hl, Hs1, Ht1, Hl1. by rewrite <- !app_assoc.
Qed.

Lemma drop_teams_eval (rows : list account) (w : world Σ) :
  let filepath := get_teams_metadata_file_path (top_level_dir (self w)) in
  files w !! filepath = Some rows →
  ∃ w', _drop_teams w = (Ok tt, w')
    ∧ sent w' = sent w ++ map (delete_by_name (self w)) (map username rows)
    ∧ logs w' = logs w ++ (INFO, importing_from filepath)
                  :: map (λ n, (INFO, delete_team n)) (map username rows).
Proof.
  intros filepath Hfile. unfold filepath in *. clear filepath.
  unfold _drop_teams, read_json_file. unfold bind at 1 2 3, gets.
  cbv beta iota zeta. rewrite Hfile. unfold ret at 1.
  destruct (load_all_names rows w) as (objs & w1 & E & Hn & Hs & Ht & Hl).
  unfold bind at 1. rewrite E. unfold bind at 1, logging at 1, modify at 1.
  change (for_each objs _ ?w2) with (for_each objs drop_step w2).
  match goal with |- context [for_each objs drop_step ?w2] =>
    destruct (drop_loop objs w2) as (w' & E' & Hs' & Ht' & Hl') end.
  exists w'. split; [done|]. simpl in *.
  rewrite Ht', Hl', Hs, Ht, Hl, Hn. split; [done|]. by rewrite <- app_assoc.
Qed.

End Purge.

(** X19 (purge deletes every team of the snapshot, come what may): when
    the teams file exists, [_drop_teams] returns normally, whatever the
    workspace answers; it sends exactly one DELETE per team of the file, in
    the order of the file and with the importer's own key, and logs one
    line per team. *)
Theorem X19_drop_teams_deletes_every_team {Σ : Type} `{Platform Σ}
    (rows : list account) (w : world Σ) :
  let filepath := get_teams_metadata_file_path (top_level_dir (self w)) in
  files w !! filepath = Some rows →
  ∃ w', _drop_teams w = (Ok tt, w')
    ∧ sent w' = sent w ++ map (delete_by_name (self w)) (map username rows)
    ∧ logs w' = logs w ++ (INFO, importing_from filepath)
                  :: map (λ n, (INFO, delete_team n)) (map username rows).
Proof. apply drop_teams_eval. Qed.

Lemma X19_drop_teams_deletes_every_team_witness :
  let w := Sample.start [Sample.t1; Sample.t0]
             (Sample.workspace [Sample.alice] {["t1" := Sample.t1]}) in
  Workspace.teams (remote (_drop_teams w).2) = ∅
  ∧ ∃ w', _drop_teams w = (Ok tt, w')
      ∧ sent w' = sent w ++ map (delete_by_name (self w)) ["t1"; "t0"]
      ∧ logs w' = logs w ++ (INFO, importing_from "/out/teams.json")
                    :: [(INFO, delete_team "t1"); (INFO, delete_team "t0")].
Proof.
  intros w. split; [vm_compute; reflexivity|].
  exact (X19_drop_teams_deletes_every_team [Sample.t1; Sample.t0] w eq_refl).
Defined.

(** ** An error body without a message *)

Section MaskedError.
Context {Σ : Type} `{Platform Σ}.


End MaskedError.



(** ** Replaying a team of the snapshot *)

Section SnapshotReplay.
Context {Σ : Type} `{Platform Σ}.

(** The references [load] hands out point to the members of the team, in
    order. *)
Lemma loaded_members (h ms : list member) :
  map (λ r, (h ++ ms) !!! r) (seq (length h) (length ms)) = ms.
Proof.
  revert h. induction ms as [|m ms IH]; intros h; simpl; [done|]. f_equal.
  - rewrite list_lookup_total_middle; done.
  - specialize (IH (h ++ [m])). rewrite length_app, Nat.add_1_r in IH.
    by rewrite <- app_assoc in IH.
Qed.

Lemma filter_refs_nil (P : member → Prop) `{∀ m, Decision (P m)}
    (h : list member) (refs : list ref) :
  filter P (map (λ r, h !!! r) refs) = [] → filter (λ r, P (h !!! r)) refs = [].
Proof.
  induction refs as [|r refs IH]; simpl; [done|].
  rewrite !filter_cons. destruct (decide (P (h !!! r))); [done|]. exact IH.
Qed.

Lemma create_or_update_ownerless (team : team_obj) (w : world Σ) :
  owner_refs (heap w) team = [] →
  _create_or_update_team team w = (Raise IndexError, w).
Proof.
  intros Hnone. rewrite create_or_update_unfold.
  unfold bind, filter_refs. fold (owner_refs (heap w) team). by rewrite Hnone.
Qed.

Lemma replay_ownerless (team : account) (w : world Σ) :
  owners team = [] →
  replay team w = (Raise IndexError, set_heap (heap w ++ teamMembers team) w).
Proof.
  intros Hnone. unfold replay, bind, load.
  rewrite create_or_update_ownerless; [done|].
  unfold owner_refs. simpl.
  refine (filter_refs_nil (λ m, permission m = "owner")
            (heap w ++ teamMembers team) _ _).
  by rewrite loaded_members.
Qed.

End SnapshotReplay.

(** ** An ownerless team anywhere in the snapshot *)

Section OwnerlessSnapshot.
Context {Σ : Type} `{Platform Σ}.










End OwnerlessSnapshot.

(** X21 (a snapshot team without owner is never replayed): for a team of
    the snapshot with no entry of permission ['owner'], [replay] raises
    [IndexError] as soon as its members are in memory: nothing is deleted,
    sent or logged. *)
Theorem X21_ownerless_snapshot_team_is_not_replayed {Σ : Type} `{Platform Σ}
    (team : account) (w : world Σ) :
  owners team = [] →
  replay team w = (Raise IndexError, set_heap (heap w ++ teamMembers team) w).
Proof. apply replay_ownerless. Qed.

Lemma X21_ownerless_snapshot_team_is_not_replayed_witness :
  let w := Sample.start [] (Sample.workspace [Sample.bob] {["t0" := Sample.t1]}) in
  replay Sample.t0 w = (Raise IndexError, set_heap (heap w ++ teamMembers Sample.t0) w).
Proof.
  intros w. exact (X21_ownerless_snapshot_team_is_not_replayed Sample.t0 w eq_refl).
Defined.



Section MemberOutcomes.
Context {Σ : Type} `{Platform Σ}.

(** [add_team_member] in terms of the outcome of [_add_team_memberv1]. *)
Lemma add_team_member_eval (team_name : string) (member : member)
    (username : option string) (w : world Σ) :
  let w0 := (logging INFO (begin_add_member (m_username member) team_name) w).2 in
  add_team_member team_name member username w
  = match _add_team_memberv1 team_name member username w0 with
    | (Ok _, w1) => (Ok tt, w1)
    | (Raise e, w1) =>
        match e with
        | HTTPError resp =>
            cause <- json_message (body resp) ;;
            if decide (find cause already_a_member < 0)%Z
            then raise e
            else logging WARNING (already_added (m_username member) team_name)
        | _ => raise e
        end w1
    | (Diverge, w1) => (Diverge, w1)
    end.
Proof.
  intros w0. subst w0. unfold add_team_member, try_except, bind, logging, modify.
  simpl. by destruct (_add_team_memberv1 _ _ _ _) as [[| |] ?].
Qed.

Lemma add_team_member_cases (team_name : string) (member : member)
    (username : option string) (w : world Σ) :
  let w0 := (logging INFO (begin_add_member (m_username member) team_name) w).2 in
  let call := _add_team_memberv1 team_name member username w0 in
  (∀ st message, call.1 = Raise (HTTPError (Response st (JMessage message))) →
     contains message already_a_member →
     add_team_member team_name member username w
     = (Ok tt,
        set_logs (logs call.2 ++ [(WARNING, already_added (m_username member) team_name)])
                 call.2))
  ∧ (∀ st message, call.1 = Raise (HTTPError (Response st (JMessage message))) →
       ¬ contains message already_a_member →
       add_team_member team_name member username w
       = (Raise (HTTPError (Response st (JMessage message))), call.2))
  ∧ (∀ e, call.1 = Raise e → (∀ resp, e ≠ HTTPError resp) →
       add_team_member team_name member username w = (Raise e, call.2))
  ∧ (∀ j, call.1 = Ok j →
       add_team_member team_name member username w = (Ok tt, call.2)).
Proof.
  intros w0 call. rewrite add_team_member_eval. fold w0. fold call.
  destruct call as [[j|e|] w1]; simpl; repeat split; try done.
  - intros st message [= ->] Hc. unfold bind, json_message, ret. simpl.
    destruct (decide _) as [Hf|Hf]; [by apply find_negative in Hf|done].
  - intros st message [= ->] Hc. unfold bind, json_message, ret. simpl.
    destruct (decide _) as [Hf|Hf]; [done|].
    exfalso. apply Hf. by apply find_negative.
  - intros e' [= <-] Hne. destruct e; try done. by destruct (Hne resp).
Qed.

End MemberOutcomes.

(** X23 (the four outcomes of [add_team_member]): with [call] the outcome
    of [_add_team_memberv1] after the opening log line — (1) an [HTTPError]
    whose message contains "is already a member of this team" is logged as
    a warning and the method returns; (2) an [HTTPError] with any other
    message is raised again unchanged; (3) an exception that is not an
    [HTTPError] passes through unchanged; (4) a successful call returns
    without a further log line. *)
Theorem X23_add_team_member_outcomes {Σ : Type} `{Platform Σ}
    (team_name : string) (member : member) (username : option string)
    (w : world Σ) :
  let w0 := (logging INFO (begin_add_member (m_username member) team_name) w).2 in
  let call := _add_team_memberv1 team_name member username w0 in
  (∀ st message, call.1 = Raise (HTTPError (Response st (JMessage message))) →
     contains message already_a_member →
     add_team_member team_name member username w
     = (Ok tt,
        set_logs (logs call.2 ++ [(WARNING, already_added (m_username member) team_name)])
                 call.2))
  ∧ (∀ st message, call.1 = Raise (HTTPError (Response st (JMessage message))) →
       ¬ contains message already_a_member →
       add_team_member team_name member username w
       = (Raise (HTTPError (Response st (JMessage message))), call.2))
  ∧ (∀ e, call.1 = Raise e → (∀ resp, e ≠ HTTPError resp) →
       add_team_member team_name member username w = (Raise e, call.2))
  ∧ (∀ j, call.1 = Ok j →
       add_team_member team_name member username w = (Ok tt, call.2)).
Proof. apply add_team_member_cases. Qed.

Lemma X23_add_team_member_outcomes_witness :
  let w := Sample.start []
             (Sample.workspace [Sample.alice; Sample.bob] {["t1" := Sample.t1]}) in
  add_team_member "t1" (Member "bob" "member" []) None w
  = (Ok tt,
     set_logs [(INFO, begin_add_member "bob" "t1"); (WARNING, already_added "bob" "t1")]
       (set_sent [Request "https://dst" (TEAM_MEMBER_ADD "t1") POST (Some "key-admin")
                    (Some (JMember (Member "bob" "member" []))) "/ca"] w)).
Proof.
  intros w.
  destruct (X23_add_team_member_outcomes "t1" (Member "bob" "member" []) None w)
    as (Hconflict & _).
  rewrite (Hconflict 400%Z "bob is already a member of this team").
  - reflexivity.
  - reflexivity.
  - by exists "bob ", "".
Defined.

Lemma X12_replay_rewrites_a_prefix_of_extra_owners_witness :
  let team : team_obj := Account "t2" false [0; 1; 2] [] in
  let w := World Sample.importer (teamMembers Sample.t2) ∅ 0 [] []
             (Sample.workspace [Sample.alice; Sample.bob] ∅) in
  (_create_or_update_team team w).1 = Raise Workspace.unauthorized
  ∧ heap (_create_or_update_team team w).2
    = [Member "alice" "owner" []; Member "bob" "member" [("id", "7")];
       Member "carol" "admin" []]
  ∧ ∃ k,
      heap (_create_or_update_team team w).2
      = foldl set_admin (heap w) (take k (drop 1 (owner_refs (heap w) team)))
      ∧ ((_create_or_update_team team w).1 = Ok tt
         → k = length (drop 1 (owner_refs (heap w) team))).
Proof.
  intros team w. split; [vm_compute; reflexivity|].
  split; [vm_compute; reflexivity|].
  apply (X12_replay_rewrites_a_prefix_of_extra_owners team w).
Defined.
